(** * mxjp/validation: parsers, paths and the ISO 8601 duration parser

    A shallow embedding of [src/index.ts] (the library) and the facts its
    specification states about it.

    - JavaScript strings are [string]s, a character is an [ascii] (code
      units above 255 are not represented; no class of the pattern below
      matches one).
    - JavaScript numbers are IEEE 754 binary64 values: [spec_float] at
      precision 53 and maximal exponent 1024, with the operations of
      [SpecFloat].
    - [throw] and [try]/[catch] are an explicit [Completion]: a parser
      either returns normally or throws an [Exception].
    - The regular expression [ISO_DURATION_REGEXP] is embedded as a
      backtracking matcher in continuation-passing style, the way
      ECMAScript defines the semantics of patterns. *)

From Stdlib Require Import ZArith Ascii String List Bool Lia.
From Stdlib Require Import SpecFloat DecimalString.
From stdpp Require Import base option list gmap strings.

Local Open Scope Z_scope.

(** String append computes under [simpl], as in the Standard Library. *)
#[local] Arguments String.append !s1 s2 : simpl nomatch.

(** ** Characters and strings *)

Definition dquote : ascii := "034".

Definition is_digit (a : ascii) : bool :=
  (48 <=? nat_of_ascii a)%nat && (nat_of_ascii a <=? 57)%nat.

Definition is_separator (a : ascii) : bool :=
  Ascii.eqb a "," || Ascii.eqb a ".".

(** [String.prototype.replace] with two one-character strings: only the
    first occurrence is replaced. *)
Fixpoint String_replace (pattern replacement : ascii) (s : string) : string :=
  match s with
  | EmptyString => EmptyString
  | String a s' =>
      if Ascii.eqb a pattern then String replacement s'
      else String a (String_replace pattern replacement s')
  end.

(** ** Numbers *)

Module Number.

Definition prec : Z := 53.
Definition emax : Z := 1024.

(** The binary64 value nearest to an integer. *)
Definition of_Z (z : Z) : spec_float := binary_normalize prec emax z 0 false.

Definition mul : spec_float -> spec_float -> spec_float := SFmul prec emax.
Definition add : spec_float -> spec_float -> spec_float := SFadd prec emax.

Definition digit_value (a : ascii) : Z := Z.of_nat (nat_of_ascii a) - 48.

(** Reads the longest run of decimal digits at the front of [s]: the
    number they denote after [acc], how many there were, and the rest. *)
Fixpoint read_digits (acc : Z) (count : nat) (s : string) : Z * nat * string :=
  match s with
  | String a s' =>
      if is_digit a then read_digits (10 * acc + digit_value a) (S count) s'
      else (acc, count, s)
  | EmptyString => (acc, count, s)
  end.

(** The binary64 value nearest (ties to even) to [numerator / 10^scale]. *)
Definition of_decimal (numerator : Z) (scale : nat) : spec_float :=
  match numerator with
  | Zpos p =>
      SFdiv prec emax (S754_finite false p 0)
            (S754_finite false (Z.to_pos (10 ^ Z.of_nat scale)) 0)
  | _ => S754_zero false
  end.

(** [Number.parseFloat] on the texts [parseElem] passes to it: the longest
    prefix [digits], [digits.digits], [digits.] or [.digits] is read and
    rounded to the nearest number; a text with no such prefix gives NaN.
    Leading white space, signs, exponents and [Infinity] never occur in
    a captured quantity and are left out. *)
Definition parseFloat (s : string) : spec_float :=
  let '(ip, ni, r) := read_digits 0 0%nat s in
  match r with
  | String "." r' =>
      let '(n, nf, _) := read_digits ip 0%nat r' in
      if ((ni =? 0) && (nf =? 0))%nat then S754_nan else of_decimal n nf
  | _ => if (ni =? 0)%nat then S754_nan else of_decimal ip 0%nat
  end.

End Number.

(** ** Regular expressions

  A matcher takes the index reached in the input, the text that is left
  from there, the captures so far and a continuation; it returns the
  captures of the first successful way to match, trying the alternatives
  in the order the pattern gives them. *)

Module RegExp.
Section Matchers.

Context {C : Type}.

Definition Continuation : Type := nat -> string -> C -> option C.
Definition Matcher : Type := nat -> string -> C -> Continuation -> option C.

(** A character class, here given by its predicate. *)
Definition char_set (p : ascii -> bool) : Matcher := fun i s c k =>
  match s with
  | String a s' => if p a then k (S i) s' c else None
  | EmptyString => None
  end.

Definition chr (x : ascii) : Matcher := char_set (Ascii.eqb x).

Definition empty : Matcher := fun i s c k => k i s c.

(** [m1 m2] *)
Definition seq (m1 m2 : Matcher) : Matcher := fun i s c k =>
  m1 i s c (fun i' s' c' => m2 i' s' c' k).

(** [m1|m2] *)
Definition alt (m1 m2 : Matcher) : Matcher := fun i s c k =>
  match m1 i s c k with
  | Some r => Some r
  | None => m2 i s c k
  end.

(** [m?], greedy.  The patterns under [?] here never match the empty
    text, so the rule that rejects an empty iteration plays no part. *)
Definition opt (m : Matcher) : Matcher := alt m empty.

(** [[p]*], greedy *)
Fixpoint star_set (p : ascii -> bool) (i : nat) (s : string) (c : C)
    (k : Continuation) : option C :=
  match s with
  | String a s' =>
      if p a then
        match star_set p (S i) s' c k with
        | Some r => Some r
        | None => k i s c
        end
      else k i s c
  | EmptyString => k i s c
  end.

(** [[p]+], greedy *)
Definition plus_set (p : ascii -> bool) : Matcher :=
  seq (char_set p) (star_set p).

(** [(?=m)] *)
Definition lookahead (m : Matcher) : Matcher := fun i s c k =>
  match m i s c (fun _ _ c' => Some c') with
  | Some c' => k i s c'
  | None => None
  end.

(** [^] without the multiline flag *)
Definition bos : Matcher := fun i s c k =>
  match i with
  | O => k i s c
  | S _ => None
  end.

(** [$] without the multiline flag *)
Definition eos : Matcher := fun i s c k =>
  match s with
  | EmptyString => k i s c
  | String _ _ => None
  end.

(** [(?<name>m)]: the text between the index where the group starts and
    the index where it ends is stored under the group's name. *)
Definition capture (name : string -> C -> C) (m : Matcher) : Matcher :=
  fun i s c k =>
    m i s c (fun i' s' c' => k i' s' (name (substring 0 (i' - i) s) c')).

(** [RegExp.prototype.exec] of a pattern without the global and sticky
    flags: the match is tried at index 0, then 1, and so on. *)
Fixpoint exec_from (m : Matcher) (c0 : C) (i : nat) (s : string) : option C :=
  match m i s c0 (fun _ _ c => Some c) with
  | Some r => Some r
  | None =>
      match s with
      | String _ s' => exec_from m c0 (S i) s'
      | EmptyString => None
      end
  end.

Definition exec (m : Matcher) (c0 : C) (input : string) : option C :=
  exec_from m c0 0%nat input.

End Matchers.
End RegExp.

(** ** Values, paths and errors *)

(** The untyped values parsers receive at a trust boundary.  An object is
    a plain object, whose prototype is [Object.prototype], given as the
    list of its own enumerable properties in enumeration order. *)
#[warnings="-register-all"]
Inductive Value : Type :=
| VUndefined
| VNull
| VBoolean (b : bool)
| VNumber (x : spec_float)
| VString (s : string)
| VObject (props : list (string * Value)).

Definition typeof (v : Value) : string :=
  match v with
  | VUndefined => "undefined"
  | VNull => "object"
  | VBoolean _ => "boolean"
  | VNumber _ => "number"
  | VString _ => "string"
  | VObject _ => "object"
  end.

Definition is_null (v : Value) : bool :=
  match v with VNull => true | _ => false end.

Definition is_undefined (v : Value) : bool :=
  match v with VUndefined => true | _ => false end.

(** The keys a [for (const key in v)] loop visits, with their values. *)
Definition own_properties (v : Value) : list (string * Value) :=
  match v with
  | VObject props => props
  | _ => []
  end.

Fixpoint lookup_property (key : string) (props : list (string * Value)) : option Value :=
  match props with
  | [] => None
  | (k, x) :: rest => if String.eqb k key then Some x else lookup_property key rest
  end.

(** [v[key]], for the own properties; what an object inherits from its
    prototype is not modelled, so this is [v[key]] for the names the
    prototype chain of [v] does not define. *)
Definition get_property (v : Value) (key : string) : Value :=
  default VUndefined (lookup_property key (own_properties v)).

(** [output[key] = x] *)
Fixpoint set_property (key : string) (x : Value) (props : list (string * Value))
    : list (string * Value) :=
  match props with
  | [] => [(key, x)]
  | (k, y) :: rest =>
      if String.eqb k key then (k, x) :: rest
      else (k, y) :: set_property key x rest
  end.

(** A path segment: a property name, an array index (as [arrayOf]
    appends them) or a symbol, of which only the description shows.  A
    number segment is a non-negative integer; the other numbers the type
    of the source admits (negative, fractional, NaN) are not
    represented. *)
Inductive Segment : Type :=
| SegString (s : string)
| SegNumber (n : N)
| SegSymbol (description : string).

Definition Path : Type := list Segment.

(** What a [throw] carries: a [ParserError], or anything else. *)
Inductive Exception : Type :=
| ParserError (path : Path) (message : string)
| OtherError (description : string).

Definition instanceof_ParserError (error : Exception) : bool :=
  match error with
  | ParserError _ _ => true
  | OtherError _ => false
  end.

Inductive Completion (A : Type) : Type :=
| Return (a : A)
| Throw (error : Exception).

Arguments Return {A} a.
Arguments Throw {A} error.

Definition bind {A B : Type} (m : Completion A) (f : A -> Completion B) : Completion B :=
  match m with
  | Return a => f a
  | Throw error => Throw error
  end.

Notation "x <- m ;; f" := (bind m (fun x => f))
  (at level 100, m at next level, right associativity).

Definition Parser (I O : Type) : Type := I -> Path -> Completion O.

Inductive MessageSource (T : Type) : Type :=
| MessageText (message : string)
| MessageFunction (f : T -> Path -> Completion string).

Arguments MessageText {T} message.
Arguments MessageFunction {T} f.

(** ** The library *)

(** How the template literal prints a number segment: its decimal
    digits.  This is what the language prints for a non-negative safe
    integer (below 2^53), as array indices are.  A larger number is
    printed with the fewest digits that read back as the same number
    (2^60 as 1152921504606847000) and from 10^21 on with an exponent
    ([1e+21]); this is not modelled: statements about the text of a
    number segment are made for segments that [prints_as_digits]. *)
Definition Number_toString (n : N) : string :=
  DecimalString.NilZero.string_of_uint (N.to_uint n).

(** [String(segment)] of a symbol. *)
Definition Symbol_toString (description : string) : string :=
  "Symbol(" +:+ description +:+ ")".

(** The segment is printed by [formatPath] as modelled: a number segment
    is a safe integer. *)
Definition prints_as_digits (segment : Segment) : bool :=
  match segment with
  | SegNumber n => (n <? 2 ^ 53)%N
  | _ => true
  end.

Fixpoint formatPath_loop (i : nat) (path : Path) (str : string) : string :=
  match path with
  | [] => str
  | segment :: rest =>
      formatPath_loop (S i) rest
        (str +:+
         match segment with
         | SegString s => if (i =? 0)%nat then s else "." +:+ s
         | SegNumber n => "[" +:+ Number_toString n +:+ "]"
         | SegSymbol d => "[" +:+ Symbol_toString d +:+ "]"
         end)
  end.

Definition formatPath (path : Path) : string :=
  formatPath_loop 0 path (String dquote "") +:+ String dquote "".

Definition getErrorMessage {T : Type} (messageSource : option (MessageSource T))
    (input : T) (path : Path) : Completion (option string) :=
  match messageSource with
  | None => Return None
  | Some (MessageText message) => Return (Some message)
  | Some (MessageFunction f) => message <- f input path ;; Return (Some message)
  end.

Definition validate {I O : Type} (input : I) (parser : Parser I O) : Completion bool :=
  match parser input [] with
  | Return _ => Return true
  | Throw error =>
      if instanceof_ParserError error then Return false else Throw error
  end.

Definition pass {T : Type} : Parser T T := fun input _ => Return input.

(** [Map.prototype.get] and [Map.prototype.has] *)
Definition Map_get `{Countable K} (m : gmap K Value) (key : K) : Value :=
  default VUndefined (m !! key).

Definition Map_has `{Countable K} (m : gmap K Value) (key : K) : bool :=
  bool_decide (is_Some (m !! key)).

Definition map {I : Type} `{Countable I} (map : gmap I Value)
    (messageSource : option (MessageSource I)) : Parser I Value :=
  fun input path =>
    let output := Map_get map input in
    if is_undefined output && negb (Map_has map input) then
      message <- getErrorMessage messageSource input path ;;
      Throw (ParserError path
               (default (formatPath path +:+ " is an unknown value") message))
    else Return output.

(** The loop of [pipe]: [value = parsers[i](value, path)] for each [i].
    The source types the stages as [Parser<any>]; here they share one
    type [T] of values. *)
Fixpoint pipe {T : Type} (parsers : list (Parser T T)) : Parser T T :=
  fun value path =>
    match parsers with
    | [] => Return value
    | parser :: rest => value' <- parser value path ;; pipe rest value' path
    end.

(** The shape given to [object]: its own names with their parsers, in
    the order in which [for (const key in parser)] visits them (the
    integer-like names in ascending order first, then the other names in
    the order of their declaration). *)
Definition ObjectParser : Type := list (string * Parser Value Value).

(** [Object.hasOwn(parser, key)] *)
Definition hasOwn (parser : ObjectParser) (key : string) : bool :=
  existsb (fun entry => String.eqb (fst entry) key) parser.

(** The first loop of [object], over the keys of [parser]. *)
Fixpoint object_fields (parser : ObjectParser) (input : Value) (path : Path)
    (output : list (string * Value)) : Completion (list (string * Value)) :=
  match parser with
  | [] => Return output
  | (key, field) :: rest =>
      x <- field (get_property input key) (path ++ [SegString key]) ;;
      object_fields rest input path (set_property key x output)
  end.

(** The second loop of [object], over the keys of [input]. *)
Fixpoint object_unknown (parser : ObjectParser) (path : Path)
    (keys : list string) : Completion unit :=
  match keys with
  | [] => Return tt
  | key :: rest =>
      if negb (hasOwn parser key) then
        let subPath := path ++ [SegString key] in
        Throw (ParserError subPath (formatPath subPath +:+ " is not supported"))
      else object_unknown parser path rest
  end.

Definition object (parser : ObjectParser) (ignoreUnknown : bool) : Parser Value Value :=
  fun input path =>
    if is_null input || negb (String.eqb (typeof input) "object") then
      Throw (ParserError path (formatPath path +:+ " must be an object"))
    else
      output <- object_fields parser input path [] ;;
      _ <- (if negb ignoreUnknown
            then object_unknown parser path (List.map fst (own_properties input))
            else Return tt) ;;
      Return (VObject output).

(** ** The duration parser *)

(** [match.groups]: a named group that took no part in the match is
    [undefined], here [None]. *)
Record Groups : Type := {
  negative : option string;
  years : option string;
  months : option string;
  weeks : option string;
  days : option string;
  hours : option string;
  minutes : option string;
  seconds : option string;
}.

Definition no_groups : Groups :=
  {| negative := None; years := None; months := None; weeks := None;
     days := None; hours := None; minutes := None; seconds := None |}.

Definition set_negative (v : string) (g : Groups) : Groups :=
  {| negative := Some v; years := years g; months := months g; weeks := weeks g;
     days := days g; hours := hours g; minutes := minutes g; seconds := seconds g |}.
Definition set_years (v : string) (g : Groups) : Groups :=
  {| negative := negative g; years := Some v; months := months g; weeks := weeks g;
     days := days g; hours := hours g; minutes := minutes g; seconds := seconds g |}.
Definition set_months (v : string) (g : Groups) : Groups :=
  {| negative := negative g; years := years g; months := Some v; weeks := weeks g;
     days := days g; hours := hours g; minutes := minutes g; seconds := seconds g |}.
Definition set_weeks (v : string) (g : Groups) : Groups :=
  {| negative := negative g; years := years g; months := months g; weeks := Some v;
     days := days g; hours := hours g; minutes := minutes g; seconds := seconds g |}.
Definition set_days (v : string) (g : Groups) : Groups :=
  {| negative := negative g; years := years g; months := months g; weeks := weeks g;
     days := Some v; hours := hours g; minutes := minutes g; seconds := seconds g |}.
Definition set_hours (v : string) (g : Groups) : Groups :=
  {| negative := negative g; years := years g; months := months g; weeks := weeks g;
     days := days g; hours := Some v; minutes := minutes g; seconds := seconds g |}.
Definition set_minutes (v : string) (g : Groups) : Groups :=
  {| negative := negative g; years := years g; months := months g; weeks := weeks g;
     days := days g; hours := hours g; minutes := Some v; seconds := seconds g |}.
Definition set_seconds (v : string) (g : Groups) : Groups :=
  {| negative := negative g; years := years g; months := months g; weeks := weeks g;
     days := days g; hours := hours g; minutes := minutes g; seconds := Some v |}.

Import RegExp.

(** [(?:(?<name>\d*[,.]\d+(?=designatorT?$)|\d+)designator)?] *)
Definition element (designator : ascii) (name : string -> Groups -> Groups)
    : Matcher :=
  opt (seq (capture name
              (alt (seq (star_set is_digit)
                     (seq (char_set is_separator)
                        (seq (plus_set is_digit)
                           (lookahead
                              (seq (chr designator) (seq (opt (chr "T")) eos))))))
                   (plus_set is_digit)))
           (chr designator)).

Definition ISO_DURATION_REGEXP : Matcher :=
  seq bos
    (seq (opt (capture set_negative (chr "-")))
       (seq (chr "P")
          (seq (element "Y" set_years)
             (seq (element "M" set_months)
                (seq (element "W" set_weeks)
                   (seq (element "D" set_days)
                      (seq (opt (seq (chr "T")
                                   (seq (element "H" set_hours)
                                      (seq (element "M" set_minutes)
                                         (element "S" set_seconds)))))
                         eos))))))).

Definition MS_PER_SECOND : spec_float := Number.of_Z 1000.
Definition MS_PER_MINUTE : spec_float := Number.mul (Number.of_Z 60) MS_PER_SECOND.
Definition MS_PER_HOUR : spec_float := Number.mul (Number.of_Z 60) MS_PER_MINUTE.
Definition MS_PER_DAY : spec_float := Number.mul (Number.of_Z 24) MS_PER_HOUR.
Definition MS_PER_WEEK : spec_float := Number.mul (Number.of_Z 7) MS_PER_DAY.
Definition MS_PER_MONTH : spec_float := Number.mul (Number.of_Z 30) MS_PER_DAY.
Definition MS_PER_YEAR : spec_float := Number.mul (Number.of_Z 365) MS_PER_DAY.

Definition parseElem (value : option string) : spec_float :=
  match value with
  | None => Number.of_Z 0
  | Some value => Number.parseFloat (String_replace "," "." value)
  end.

(** The sum [isoDuration] returns for the groups of a match. *)
Definition duration_of_groups (groups : Groups) : spec_float :=
  Number.mul
    (Number.add (Number.add (Number.add (Number.add (Number.add (Number.add
      (Number.mul (parseElem (years groups)) MS_PER_YEAR)
      (Number.mul (parseElem (months groups)) MS_PER_MONTH))
      (Number.mul (parseElem (weeks groups)) MS_PER_WEEK))
      (Number.mul (parseElem (days groups)) MS_PER_DAY))
      (Number.mul (parseElem (hours groups)) MS_PER_HOUR))
      (Number.mul (parseElem (minutes groups)) MS_PER_MINUTE))
      (Number.mul (parseElem (seconds groups)) MS_PER_SECOND))
    (match negative groups with
     | Some "-"%string => Number.of_Z (-1)
     | _ => Number.of_Z 1
     end).

(** [isoDuration], on the strings its type admits; what [RegExp.exec]
    makes of a value that is not a string is not modelled. *)
Definition isoDuration : Parser string spec_float := fun input path =>
  if String.eqb input "P" || String.eqb input "PT"
     || String.eqb input "-P" || String.eqb input "-PT"
  then
    Throw (ParserError path (formatPath path +:+ " must be a valid ISO 8601 duration"))
  else
    match exec ISO_DURATION_REGEXP no_groups input with
    | None =>
        Throw (ParserError path (formatPath path +:+ " must be a valid ISO 8601 duration"))
    | Some groups => Return (duration_of_groups groups)
    end.

(** ** Vocabulary of the statements *)

(** What every failure of [isoDuration] throws. *)
Definition duration_error (path : Path) : Exception :=
  ParserError path (formatPath path +:+ " must be a valid ISO 8601 duration").

Fixpoint String_forall (p : ascii -> bool) (s : string) : bool :=
  match s with
  | EmptyString => true
  | String a s' => p a && String_forall p s'
  end.

Fixpoint String_exists (p : ascii -> bool) (s : string) : bool :=
  match s with
  | EmptyString => false
  | String a s' => p a || String_exists p s'
  end.

(** The text has no [T]. *)
Definition no_T (s : string) : bool :=
  String_forall (fun a => negb (Ascii.eqb a "T")) s.

(** The seven quantities of a match, in the order of the grammar. *)
Definition quantities (g : Groups) : list (option string) :=
  [years g; months g; weeks g; days g; hours g; minutes g; seconds g].

(** The text of a quantity has a fractional part. *)
Definition has_fraction (v : string) : bool := String_exists is_separator v.

Definition is_absent (q : option string) : bool :=
  match q with None => true | Some _ => false end.

(** No quantity is present after one with a fractional part. *)
Fixpoint fraction_last (qs : list (option string)) : bool :=
  match qs with
  | [] => true
  | None :: rest => fraction_last rest
  | Some v :: rest =>
      if has_fraction v then forallb is_absent rest else fraction_last rest
  end.

Fixpoint count_fractions (qs : list (option string)) : nat :=
  match qs with
  | [] => 0
  | None :: rest => count_fractions rest
  | Some v :: rest =>
      ((if has_fraction v then 1 else 0) + count_fractions rest)%nat
  end.

(** [\d+] *)
Definition integer_text (v : string) : Prop :=
  v <> "" /\ String_forall is_digit v = true.

(** [\d*[,.]\d+] *)
Definition decimal_text (v : string) : Prop :=
  exists d1 c d2,
    v = d1 +:+ String c d2 /\ String_forall is_digit d1 = true /\
    is_separator c = true /\ d2 <> "" /\ String_forall is_digit d2 = true.

(** What [T?$] leaves room for. *)
Definition only_T_left (s : string) : Prop := s = "" \/ s = "T".

(** A captured quantity [v], with [rest] what follows its designator. *)
Definition quantity_shape (v rest : string) : Prop :=
  integer_text v \/ (decimal_text v /\ only_T_left rest).

Definition element_text (designator : ascii) (q : option string) : string :=
  match q with
  | None => ""
  | Some v => v +:+ String designator ""
  end.

Definition set_opt (name : string -> Groups -> Groups) (q : option string)
    (g : Groups) : Groups :=
  match q with
  | None => g
  | Some v => name v g
  end.

Definition shape_opt (q : option string) (rest : string) : Prop :=
  match q with
  | None => True
  | Some v => quantity_shape v rest
  end.

(** The text of a run of quantities, each with its designator, before
    [tail]; and the shape of each quantity in front of what follows it. *)
Fixpoint elements_text (l : list (ascii * option string)) (tail : string) : string :=
  match l with
  | [] => tail
  | (X, q) :: l' => element_text X q +:+ elements_text l' tail
  end.

Fixpoint elements_shaped (l : list (ascii * option string)) (tail : string) : Prop :=
  match l with
  | [] => True
  | (X, q) :: l' => shape_opt q (elements_text l' tail) /\ elements_shaped l' tail
  end.

Definition date_half (g : Groups) : list (ascii * option string) :=
  [("Y"%char, years g); ("M"%char, months g); ("W"%char, weeks g); ("D"%char, days g)].

Definition time_half (g : Groups) : list (ascii * option string) :=
  [("H"%char, hours g); ("M"%char, minutes g); ("S"%char, seconds g)].

Definition sign_text (q : option string) : string :=
  match q with
  | None => ""
  | Some v => v
  end.

(** The grammar of the texts [ISO_DURATION_REGEXP] matches, read off the
    groups of the match. *)
Definition duration_grammar (input : string) (g : Groups) : Prop :=
  (negative g = None \/ negative g = Some "-"%string) /\
  exists ttail,
    input = sign_text (negative g) +:+ String "P" (elements_text (date_half g) ttail) /\
    elements_shaped (date_half g) ttail /\
    ((ttail = "" /\ hours g = None /\ minutes g = None /\ seconds g = None) \/
     (ttail = String "T" (elements_text (time_half g) "") /\
      elements_shaped (time_half g) "")).

(** A designator is neither a digit nor a separator. *)
Definition is_designator (X : ascii) : bool :=
  negb (is_digit X) && negb (is_separator X).

(** After its digits and one more character, a fractional part is
    followed by nothing or by a lone [T]. *)
Fixpoint good_tail (s : string) : bool :=
  match s with
  | EmptyString => false
  | String a r =>
      if is_digit a then good_tail r
      else String.eqb r "" || String.eqb r "T"
  end.

(** Every separator of the text is followed by a good tail. *)
Fixpoint seps_ok (s : string) : bool :=
  match s with
  | EmptyString => true
  | String a r => (if is_separator a then good_tail r else true) && seps_ok r
  end.

(** The text has a separator, then digits, then one character that is
    not a digit (the designator of that quantity), and a digit again
    somewhere after it: a fractional quantity followed by a further one. *)
Definition fraction_followed (input : string) : Prop :=
  exists pre c ds X rest,
    input = pre +:+ String c (ds +:+ String X rest) /\
    is_separator c = true /\ String_forall is_digit ds = true /\
    is_digit X = false /\ String_exists is_digit rest = true.

(** Two continuations agree on a text without [T] and on the same text
    with one [T] added at its end ([N] is the length of the whole input
    without that [T]); a matcher is blind to the added [T] when it
    keeps continuations in agreement. *)
Definition agree_T {C : Type} (N : nat) (k k' : @Continuation C) : Prop :=
  forall i s c, no_T s = true -> (i + String.length s = N)%nat ->
    k i s c = k' i (s +:+ "T") c.

Definition T_blind {C : Type} (m : @Matcher C) : Prop :=
  forall N k k', agree_T N k k' ->
    agree_T N (fun i s c => m i s c k) (fun i s c => m i s c k').

(** The stages of a chain ran in order from [value] at one and the same
    [path]: stage [i] received the value before it in [value :: outputs]
    and returned the value at [i] of [outputs]. *)
Definition runs_in_order {T : Type} (path : Path) (parsers : list (Parser T T))
    (value : T) (outputs : list T) : Prop :=
  List.length outputs = List.length parsers /\
  forall i stage received, parsers !! i = Some stage ->
    (value :: outputs) !! i = Some received ->
    exists returned, outputs !! i = Some returned /\
                     stage received path = Return returned.

(** How a path is rendered between its quotes: a string segment is bare
    at the head of the path and has a dot before it anywhere else, the
    other segments are in brackets. *)
Definition bracketed (segment : Segment) : string :=
  match segment with
  | SegString s => s
  | SegNumber n => "[" +:+ Number_toString n +:+ "]"
  | SegSymbol d => "[" +:+ Symbol_toString d +:+ "]"
  end.

Definition head_text (segment : Segment) : string := bracketed segment.

Definition later_text (segment : Segment) : string :=
  match segment with
  | SegString s => "." +:+ s
  | _ => bracketed segment
  end.

Fixpoint later_texts (path : Path) : string :=
  match path with
  | [] => ""
  | segment :: rest => later_text segment +:+ later_texts rest
  end.

(** The rendering in the words of the specification: the first string
    segment of the path is bare, wherever it stands, and every string
    segment after it has a dot. *)
Fixpoint first_string_bare (seen : bool) (path : Path) : string :=
  match path with
  | [] => ""
  | SegString s :: rest =>
      (if seen then "." +:+ s else s) +:+ first_string_bare true rest
  | segment :: rest => bracketed segment +:+ first_string_bare seen rest
  end.

Definition formatPath_as_stated (path : Path) : string :=
  String dquote (first_string_bare false path +:+ String dquote "").

(** The first key, in enumeration order, that the shape does not declare. *)
Definition first_unknown (parser : ObjectParser) (keys : list string) : option string :=
  List.find (fun key => negb (hasOwn parser key)) keys.

(** Every declared field validates the property of [input] under its
    name, at the path extended with that name. *)
Definition fields_validate (parser : ObjectParser) (input : Value) (path : Path) : Prop :=
  Forall (fun entry =>
            exists x, snd entry (get_property input (fst entry))
                        (path ++ [SegString (fst entry)]) = Return x)
         parser.

Definition not_supported (path : Path) (key : string) : Exception :=
  ParserError (path ++ [SegString key])
    (formatPath (path ++ [SegString key]) +:+ " is not supported").

(** The table of the repository's test of [isoDuration]: the texts it
    expects to be valid, with their milliseconds, and the texts it expects
    to be invalid. *)
Definition test_valid : list (string * Z) :=
  [("P3.1Y"%string, 97761600000);
   ("-P3.1Y"%string, (-97761600000));
   ("P3Y"%string, 94608000000);
   ("-P3Y"%string, (-94608000000));
   ("P6.1M"%string, 15811200000);
   ("-P6.1M"%string, (-15811200000));
   ("P6M"%string, 15552000000);
   ("-P6M"%string, (-15552000000));
   ("P2.1W"%string, 1270080000);
   ("-P2.1W"%string, (-1270080000));
   ("P2W"%string, 1209600000);
   ("-P2W"%string, (-1209600000));
   ("P4.2D"%string, 362880000);
   ("-P4.2D"%string, (-362880000));
   ("P4D"%string, 345600000);
   ("-P4D"%string, (-345600000));
   ("PT12.1H"%string, 43560000);
   ("-PT12.1H"%string, (-43560000));
   ("PT12H"%string, 43200000);
   ("-PT12H"%string, (-43200000));
   ("PT30.1M"%string, 1806000);
   ("-PT30.1M"%string, (-1806000));
   ("PT30M"%string, 1800000);
   ("-PT30M"%string, (-1800000));
   ("PT5.1S"%string, 5100);
   ("-PT5.1S"%string, (-5100));
   ("PT5S"%string, 5000);
   ("-PT5S"%string, (-5000));
   ("P3Y6M2W4DT12H30M5.2S"%string, 111760205200);
   ("-P3Y6M2W4DT12H30M5.2S"%string, (-111760205200));
   ("P3Y6M2W4DT12H30M5S"%string, 111760205000);
   ("-P3Y6M2W4DT12H30M5S"%string, (-111760205000));
   ("P3Y6M2W4DT12H30.4M"%string, 111760224000);
   ("-P3Y6M2W4DT12H30.4M"%string, (-111760224000));
   ("P3Y6M2W4DT12H30M"%string, 111760200000);
   ("-P3Y6M2W4DT12H30M"%string, (-111760200000));
   ("P3Y6M2W4DT12.4H"%string, 111759840000);
   ("-P3Y6M2W4DT12.4H"%string, (-111759840000));
   ("P3Y6M2W4DT12H"%string, 111758400000);
   ("-P3Y6M2W4DT12H"%string, (-111758400000));
   ("P3Y6M2W4.4DT"%string, 111749760000);
   ("-P3Y6M2W4.4DT"%string, (-111749760000));
   ("P3Y6M2W4DT"%string, 111715200000);
   ("-P3Y6M2W4DT"%string, (-111715200000));
   ("P3Y6M2W4.4D"%string, 111749760000);
   ("-P3Y6M2W4.4D"%string, (-111749760000));
   ("P3Y6M2W4D"%string, 111715200000);
   ("-P3Y6M2W4D"%string, (-111715200000));
   ("P3Y6M2.2W"%string, 111490560000);
   ("-P3Y6M2.2W"%string, (-111490560000));
   ("P3Y6M2W"%string, 111369600000);
   ("-P3Y6M2W"%string, (-111369600000));
   ("P3Y6.2M"%string, 110678400000);
   ("-P3Y6.2M"%string, (-110678400000));
   ("P3Y6M"%string, 110160000000);
   ("-P3Y6M"%string, (-110160000000));
   ("P3.2Y"%string, 100915200000);
   ("-P3.2Y"%string, (-100915200000));
   ("P3Y"%string, 94608000000);
   ("-P3Y"%string, (-94608000000))].

Definition test_invalid : list string :=
  ["P"%string; "PT"%string; "-P"%string; "-PT"%string; "P2.4Y3M"%string; "P3Y6M2W4DT12H30.4M5S"%string; "P3Y6M2W4DT12.4H3M"%string; "P3Y6M2W4.4DT12H"%string; "P3Y6M2.2W4D"%string; "P3Y6.2M2W"%string; "P3.2Y6M"%string].

(** ** The other parsers of the library

    They are in a module of their own, since [string], [set], [number] and
    [boolean] are names the libraries use already. *)

Module lib.

(** [Set.prototype.has] is membership of a finite set. *)
Definition set {T : Type} `{Countable T} (set : gset T)
    (messageSource : option (MessageSource T)) : Parser T T :=
  fun input path =>
    if negb (bool_decide (elem_of input set)) then
      message <- getErrorMessage messageSource input path ;;
      Throw (ParserError path
               (default (formatPath path +:+ " is an unknown value") message))
    else Return input.

(** [getDefault?.()] is [undefined] when there is no [getDefault]. *)
Definition optional (inner : Parser Value Value)
    (getDefault : option (unit -> Completion Value)) : Parser Value Value :=
  fun input path =>
    if is_undefined input then
      match getDefault with
      | None => Return VUndefined
      | Some f => f tt
      end
    else inner input path.

Definition string : Parser Value Value := fun input path =>
  if negb (String.eqb (typeof input) "string") then
    Throw (ParserError path (formatPath path +:+ " must be a string"))
  else Return input.

Definition boolean : Parser Value Value := fun input path =>
  if negb (String.eqb (typeof input) "boolean") then
    Throw (ParserError path (formatPath path +:+ " must be a boolean"))
  else Return input.

(** [equals], for any type of values and whatever [===] is on it:
    [strict_equal input value] stands for [input === value]. *)
Definition equals {T : Type} (strict_equal : T -> T -> bool) (value : T)
    (messageSource : option (MessageSource T)) : Parser T T :=
  fun input path =>
    if negb (strict_equal input value) then
      message <- getErrorMessage messageSource input path ;;
      Throw (ParserError path
               (default (formatPath path +:+ " is invalid") message))
    else Return input.

(** What [arrayOf] may be given: an array, for which [Array.isArray]
    holds, or any other value. *)
Inductive ArrayInput (I : Type) : Type :=
| IsArray (items : list I)
| NotArray (v : Value).

Arguments IsArray {I} items.
Arguments NotArray {I} v.

(** [input.map((subInput, i) => inner(subInput, path.concat(i)))], from
    index [i] on: the elements are visited in order, and the first one for
    which [inner] throws ends the loop. *)
Fixpoint arrayOf_from {I O : Type} (inner : Parser I O) (path : Path) (i : N)
    (items : list I) : Completion (list O) :=
  match items with
  | [] => Return []
  | subInput :: rest =>
      x <- inner subInput (path ++ [SegNumber i]) ;;
      xs <- arrayOf_from inner path (N.succ i) rest ;;
      Return (x :: xs)
  end.

Definition arrayOf {I O : Type} (inner : Parser I O)
    : Parser (ArrayInput I) (list O) :=
  fun input path =>
    match input with
    | NotArray _ =>
        Throw (ParserError path (formatPath path +:+ " must be an array"))
    | IsArray items => arrayOf_from inner path 0%N items
    end.

Definition isNaN (x : spec_float) : bool :=
  match x with S754_nan => true | _ => false end.

(** [Number.isSafeInteger]: a finite number [m * 2^e] that is an integer
    of magnitude at most [2^53 - 1]. *)
Definition isSafeInteger (x : spec_float) : bool :=
  match x with
  | S754_zero _ => true
  | S754_finite _ m e =>
      if 0 <=? e then Zpos m * 2 ^ e <=? 2 ^ 53 - 1
      else (Zpos m mod 2 ^ (- e) =? 0) && (Zpos m / 2 ^ (- e) <=? 2 ^ 53 - 1)
  | _ => false
  end.

(** [a < b] on numbers (false when one of them is NaN). *)
Definition lt (a b : spec_float) : bool := SFltb a b.

(** [min !== undefined && input < min], and the same for [max]. *)
Definition below (min : option spec_float) (x : spec_float) : bool :=
  match min with
  | Some m => lt x m
  | None => false
  end.

Definition above (max : option spec_float) (x : spec_float) : bool :=
  match max with
  | Some m => lt m x
  | None => false
  end.

Section Bounds.

(** How a template literal prints a number, [`${min}`]: a function
    of the language, taken as given. *)
Variable show : spec_float -> String.string.

(** The message of [number] and [integer] for the bounds given; [what]
    is [a number] or [an integer]. *)
Definition bounds_message (what : String.string) (min max : option spec_float)
    (path : Path) : String.string :=
  match min, max with
  | None, None => formatPath path +:+ " must be " +:+ what
  | None, Some max =>
      formatPath path +:+ " must be " +:+ what
        +:+ " less than or equal to " +:+ show max
  | Some min, None =>
      formatPath path +:+ " must be " +:+ what
        +:+ " greater than or equal to " +:+ show min
  | Some min, Some max =>
      formatPath path +:+ " must be " +:+ what
        +:+ " from " +:+ show min +:+ " to " +:+ show max
  end.

Definition number (min max : option spec_float) : Parser Value Value :=
  fun input path =>
    if match input with
       | VNumber x => below min x || above max x || isNaN x
       | _ => true
       end
    then Throw (ParserError path (bounds_message "a number" min max path))
    else Return input.

Definition integer (min max : option spec_float) : Parser Value Value :=
  fun input path =>
    if match input with
       | VNumber x => negb (isSafeInteger x) || below min x || above max x
       | _ => true
       end
    then Throw (ParserError path (bounds_message "an integer" min max path))
    else Return input.

End Bounds.

End lib.

(** ** Vocabulary of the further statements *)

(** The names [Object.prototype] defines.  An object that has no own
    property of such a name inherits one: [input[key]] is then what the
    prototype has, not [undefined], and [output[key] = x] for the name
    [__proto__] creates no property. *)
Definition Object_prototype_names : list string :=
  ["constructor"; "hasOwnProperty"; "isPrototypeOf"; "propertyIsEnumerable";
   "toLocaleString"; "toString"; "valueOf"; "__proto__";
   "__defineGetter__"; "__defineSetter__"; "__lookupGetter__";
   "__lookupSetter__"].

Definition inherited (key : string) : bool :=
  existsb (String.eqb key) Object_prototype_names.

(** No name of the shape is a name of [Object.prototype]: for the names
    of such a shape [get_property input key] is [input[key]]. *)
Definition plain_names (parser : ObjectParser) : bool :=
  forallb (fun entry => negb (inherited (fst entry))) parser.

(** Every failure of the parser is a [ParserError] at the path it was
    given or at a path below it. *)
Definition fails_below {I O : Type} (p : Parser I O) : Prop :=
  forall input path error,
    p input path = Throw error ->
    exists below message, error = ParserError (path ++ below) message.

(** What the parsers without inner parsers throw is a [ParserError] at
    the path itself. *)
Definition fails_at {I O : Type} (p : Parser I O) : Prop :=
  forall input path error,
    p input path = Throw error -> exists message, error = ParserError path message.

(** A message source that cannot throw: none, or a fixed text. *)
Definition fixed_message {T : Type} (messageSource : option (MessageSource T)) : Prop :=
  match messageSource with
  | Some (MessageFunction _) => False
  | _ => True
  end.

(** The sum of [isoDuration] before the sign is applied. *)
Definition duration_magnitude (groups : Groups) : spec_float :=
  Number.add (Number.add (Number.add (Number.add (Number.add (Number.add
    (Number.mul (parseElem (years groups)) MS_PER_YEAR)
    (Number.mul (parseElem (months groups)) MS_PER_MONTH))
    (Number.mul (parseElem (weeks groups)) MS_PER_WEEK))
    (Number.mul (parseElem (days groups)) MS_PER_DAY))
    (Number.mul (parseElem (hours groups)) MS_PER_HOUR))
    (Number.mul (parseElem (minutes groups)) MS_PER_MINUTE))
    (Number.mul (parseElem (seconds groups)) MS_PER_SECOND).

(** One of the four empty forms. *)
Definition empty_form (input : string) : bool :=
  String.eqb input "P" || String.eqb input "PT"
  || String.eqb input "-P" || String.eqb input "-PT".

(** Every comma of a text made a full stop. *)
Definition dot (a : ascii) : ascii := if Ascii.eqb a "," then "."%char else a.

Fixpoint String_map (f : ascii -> ascii) (s : string) : string :=
  match s with
  | EmptyString => EmptyString
  | String a s' => String (f a) (String_map f s')
  end.

Definition dots (s : string) : string := String_map dot s.

Definition dots_groups (g : Groups) : Groups :=
  {| negative := option_map dots (negative g);
     years := option_map dots (years g);
     months := option_map dots (months g);
     weeks := option_map dots (weeks g);
     days := option_map dots (days g);
     hours := option_map dots (hours g);
     minutes := option_map dots (minutes g);
     seconds := option_map dots (seconds g) |}.

(** A continuation succeeds on [rest] at every index and for all
    captures. *)
Definition accepts {C : Type} (k : @Continuation C) (rest : string) : Prop :=
  forall i c, is_Some (k i rest c).

(** Two continuations give the same result, up to [fc] on the captures,
    when the second is run [shift] characters further on the text with
    [fa] applied to every character; a matcher carries this over when
    it keeps continuations so related. *)
Definition translated {C : Type} (shift : nat) (fa : ascii -> ascii)
    (fc : C -> C) (k k' : @Continuation C) : Prop :=
  forall i s c,
    k' (shift + i)%nat (String_map fa s) (fc c) = option_map fc (k i s c).

Definition translates {C : Type} (shift : nat) (fa : ascii -> ascii)
    (fc : C -> C) (m : @Matcher C) : Prop :=
  forall k k', translated shift fa fc k k' ->
    translated shift fa fc (fun i s c => m i s c k) (fun i s c => m i s c k').

(** * Facts *)

(** ** Literal durations *)

(** The embedding agrees with the repository's own test table. *)
Lemma isoDuration_test_table : forall path : Path,
  Forall (fun row => isoDuration (fst row) path = Return (Number.of_Z (snd row)))
         test_valid /\
  Forall (fun text => isoDuration text path = Throw (duration_error path))
         test_invalid.
Proof.
  intros path. split; repeat constructor; vm_compute; reflexivity.
Qed.

(** C1: under the fixed unit factors (a year is 365 days, a month 30 days,
    a week 7 days, a day 24 hours, with the usual hour, minute and
    second), the text P3Y6M2W4DT12H30M5.2S parses to exactly 111760205200
    milliseconds and -P3Y to exactly -94608000000 milliseconds. *)
Theorem isoDuration_literal_values : forall path : Path,
  MS_PER_SECOND = Number.of_Z 1000 /\
  MS_PER_MINUTE = Number.of_Z (60 * 1000) /\
  MS_PER_HOUR = Number.of_Z (60 * 60 * 1000) /\
  MS_PER_DAY = Number.of_Z (24 * 60 * 60 * 1000) /\
  MS_PER_WEEK = Number.of_Z (7 * 24 * 60 * 60 * 1000) /\
  MS_PER_MONTH = Number.of_Z (30 * 24 * 60 * 60 * 1000) /\
  MS_PER_YEAR = Number.of_Z (365 * 24 * 60 * 60 * 1000) /\
  isoDuration "P3Y6M2W4DT12H30M5.2S" path = Return (Number.of_Z 111760205200) /\
  isoDuration "-P3Y" path = Return (Number.of_Z (-94608000000)).
Proof.
  intros path. repeat split; vm_compute; reflexivity.
Qed.

(** C9: the four empty forms P, PT, -P and -PT are rejected, at every
    path, with the message that the value must be a valid ISO 8601
    duration; at the path test the message of PT reads
    "test" must be a valid ISO 8601 duration (with the quotes). *)
Theorem isoDuration_rejects_empty_forms : forall path : Path,
  isoDuration "P" path = Throw (duration_error path) /\
  isoDuration "PT" path = Throw (duration_error path) /\
  isoDuration "-P" path = Throw (duration_error path) /\
  isoDuration "-PT" path = Throw (duration_error path) /\
  isoDuration "PT" [SegString "test"] =
    Throw (ParserError [SegString "test"]
             (String dquote ("test" +:+ String dquote " must be a valid ISO 8601 duration"))).
Proof.
  intros path. repeat split; reflexivity.
Qed.

(** ** Strings *)

Lemma append_assoc (a b c : string) : (a +:+ b) +:+ c = a +:+ (b +:+ c).
Proof. induction a as [|x a IH]; simpl; [reflexivity | now rewrite IH]. Qed.

Lemma append_empty_r (a : string) : a +:+ "" = a.
Proof. induction a as [|x a IH]; simpl; [reflexivity | now rewrite IH]. Qed.

Lemma length_append (a b : string) :
  String.length (a +:+ b) = (String.length a + String.length b)%nat.
Proof. induction a as [|x a IH]; simpl; [reflexivity | now rewrite IH]. Qed.

Lemma substring_prefix (v rest : string) :
  substring 0 (String.length v) (v +:+ rest) = v.
Proof.
  induction v as [|x v IH]; simpl.
  - destruct rest; reflexivity.
  - now rewrite IH.
Qed.

Lemma substring_append_l (n : nat) (s t : string) :
  (n <= String.length s)%nat -> substring 0 n (s +:+ t) = substring 0 n s.
Proof.
  revert n. induction s as [|x s IH]; intros n Hn; simpl in *.
  - assert (n = 0%nat) as -> by lia. destruct t; reflexivity.
  - destruct n as [|n]; [reflexivity |]. rewrite IH; [reflexivity | lia].
Qed.

Lemma digit_not_separator (a : ascii) : is_digit a = true -> is_separator a = false.
Proof.
  unfold is_separator. intros Hd.
  destruct (Ascii.eqb a ",") eqn:E1; [apply Ascii.eqb_eq in E1; subst; discriminate |].
  destruct (Ascii.eqb a ".") eqn:E2; [apply Ascii.eqb_eq in E2; subst; discriminate |].
  reflexivity.
Qed.

Lemma digits_no_fraction (v : string) :
  String_forall is_digit v = true -> has_fraction v = false.
Proof.
  unfold has_fraction. induction v as [|x v IH]; simpl; [reflexivity |].
  intros [Hx Hv]%andb_prop. now rewrite (digit_not_separator x Hx), IH.
Qed.

(** ** Matchers: what a successful match tells *)

Section MatcherFacts.

Context {C : Type}.
Implicit Types (k : @Continuation C) (m : @Matcher C) (c r : C).

Lemma char_set_Some p i s c k r :
  char_set p i s c k = Some r ->
  exists a s', s = String a s' /\ p a = true /\ k (S i) s' c = Some r.
Proof.
  destruct s as [|a s']; simpl; [discriminate |].
  destruct (p a) eqn:E; [| discriminate]. eauto.
Qed.

Lemma star_set_Some p s : forall i c k r,
  star_set p i s c k = Some r ->
  exists d s', s = d +:+ s' /\ String_forall p d = true /\
               k (i + String.length d)%nat s' c = Some r.
Proof.
  induction s as [|a s IH]; intros i c k r H; simpl in H.
  - exists "", "". simpl. now rewrite Nat.add_0_r.
  - destruct (p a) eqn:E.
    + destruct (star_set p (S i) s c k) eqn:Hs.
      * inversion H; subst. destruct (IH _ _ _ _ Hs) as (d & s' & -> & Hd & Hk).
        exists (String a d), s'. simpl. rewrite E, Hd.
        repeat split. now rewrite <- Nat.add_succ_comm.
      * exists "", (String a s). simpl. now rewrite Nat.add_0_r.
    + exists "", (String a s). simpl. now rewrite Nat.add_0_r.
Qed.

Lemma plus_set_Some p i s c k r :
  plus_set p i s c k = Some r ->
  exists d s', s = d +:+ s' /\ d <> "" /\ String_forall p d = true /\
               k (i + String.length d)%nat s' c = Some r.
Proof.
  unfold plus_set, seq. intros H.
  apply char_set_Some in H as (a & s1 & -> & Ha & H).
  apply star_set_Some in H as (d & s' & -> & Hd & H).
  exists (String a d), s'. simpl. rewrite Ha, Hd.
  repeat split; [discriminate |]. now rewrite <- Nat.add_succ_comm.
Qed.

Lemma alt_Some m1 m2 i s c k r :
  alt m1 m2 i s c k = Some r ->
  m1 i s c k = Some r \/ m2 i s c k = Some r.
Proof.
  unfold alt. destruct (m1 i s c k); intros H; [left | right]; assumption.
Qed.

Lemma eos_Some i s c k r :
  eos i s c k = Some r -> s = "" /\ k i "" c = Some r.
Proof. destruct s; simpl; [auto | discriminate]. Qed.

Lemma bos_Some i s c k r :
  bos i s c k = Some r -> i = 0%nat /\ k 0%nat s c = Some r.
Proof. destruct i; simpl; [auto | discriminate]. Qed.

Lemma lookahead_Some m i s c k r :
  lookahead m i s c k = Some r ->
  exists c', m i s c (fun _ _ c' => Some c') = Some c' /\ k i s c' = Some r.
Proof.
  unfold lookahead. destruct (m i s c _) as [c'|]; [eauto | discriminate].
Qed.

(** A pattern that starts with [^] matches at index 0 or not at all. *)
Lemma exec_bos m c0 input :
  exec (seq bos m) c0 input = seq bos m 0%nat input c0 (fun _ _ c => Some c).
Proof.
  unfold exec.
  assert (Hlater : forall s i, exec_from (seq bos m) c0 (S i) s = None).
  { induction s as [|a s IH]; intros i; simpl; [reflexivity | apply IH]. }
  destruct input as [|a s]; simpl.
  - now destruct (seq bos m 0%nat "" c0 _).
  - rewrite Hlater. now destruct (seq bos m 0%nat (String a s) c0 _).
Qed.

End MatcherFacts.

(** ** The pattern of durations: what a match tells *)

Lemma chr_Some {C : Type} (x : ascii) i s (c : C) k r :
  chr x i s c k = Some r ->
  exists s', s = String x s' /\ k (S i) s' c = Some r.
Proof.
  intros H. apply char_set_Some in H as (a & s' & -> & Ha & H).
  apply Ascii.eqb_eq in Ha. subst a. eauto.
Qed.

(** The lookahead [(?=designatorT?$)]. *)
Lemma designator_ahead_Some {C : Type} (X : ascii) i s (c r : C) :
  seq (chr X) (seq (opt (chr "T")) eos) i s c (fun _ _ c' => Some c') = Some r ->
  r = c /\ exists rest, s = String X rest /\ only_T_left rest.
Proof.
  unfold seq. intros H.
  apply chr_Some in H as (s' & -> & H).
  apply alt_Some in H as [H | H].
  - apply chr_Some in H as (s'' & -> & H).
    apply eos_Some in H as [-> H]. inversion H.
    split; [reflexivity |]. exists "T". split; [reflexivity | now right].
  - unfold empty in H. apply eos_Some in H as [-> H]. inversion H.
    split; [reflexivity |]. exists "". split; [reflexivity | now left].
Qed.

Lemma element_sound (X : ascii) (name : string -> Groups -> Groups) i s g k r :
  element X name i s g k = Some r ->
  exists q rest i',
    s = element_text X q +:+ rest /\ shape_opt q rest /\
    k i' rest (set_opt name q g) = Some r.
Proof.
  unfold element, opt. intros H.
  apply alt_Some in H as [H | H].
  2: { exists None, s, i. simpl. auto. }
  unfold seq at 1, capture in H.
  apply alt_Some in H as [H | H].
  - unfold seq in H.
    apply star_set_Some in H as (d1 & s1 & -> & Hd1 & H).
    apply char_set_Some in H as (a & s2 & -> & Ha & H).
    apply plus_set_Some in H as (d2 & s3 & -> & Hd2n & Hd2 & H).
    apply lookahead_Some in H as (c' & Hl & H).
    apply designator_ahead_Some in Hl as (-> & rest & -> & Hrest).
    apply chr_Some in H as (rest' & Heq & H). inversion Heq; subst rest'.
    exists (Some (d1 +:+ String a d2)), rest, (S (S (i + String.length d1) + String.length d2)).
    simpl. rewrite !append_assoc. simpl.
    split; [reflexivity |]. split.
    + right. split; [| assumption]. exists d1, a, d2. auto.
    + replace (S (i + String.length d1) + String.length d2 - i)%nat
        with (String.length (d1 +:+ String a d2)) in H
        by (rewrite length_append; simpl; lia).
      replace (d1 +:+ String a (d2 +:+ String X rest))
        with ((d1 +:+ String a d2) +:+ String X rest) in H
        by (rewrite append_assoc; reflexivity).
      rewrite substring_prefix in H. exact H.
  - apply plus_set_Some in H as (d & s1 & -> & Hdn & Hd & H).
    apply chr_Some in H as (rest & -> & H).
    exists (Some d), rest, (S (i + String.length d)).
    simpl. rewrite append_assoc. simpl.
    split; [reflexivity |]. split.
    + left. split; assumption.
    + replace (i + String.length d - i)%nat with (String.length d) in H by lia.
      rewrite substring_prefix in H. exact H.
Qed.

Lemma ISO_DURATION_REGEXP_sound (input : string) (r : Groups) :
  exec ISO_DURATION_REGEXP no_groups input = Some r ->
  duration_grammar input r.
Proof.
  unfold ISO_DURATION_REGEXP. rewrite exec_bos. unfold seq. intros H.
  apply bos_Some in H as [_ H].
  assert (exists sign g0 s0,
            input = sign_text sign +:+ s0 /\ (sign = None \/ sign = Some "-"%string) /\
            g0 = set_opt set_negative sign no_groups /\
            exists i0, chr "P" i0 s0 g0
              (fun i1 s1 g1 => element "Y" set_years i1 s1 g1
              (fun i2 s2 g2 => element "M" set_months i2 s2 g2
              (fun i3 s3 g3 => element "W" set_weeks i3 s3 g3
              (fun i4 s4 g4 => element "D" set_days i4 s4 g4
              (fun i5 s5 g5 =>
                 opt (fun i s c k => chr "T" i s c
                        (fun i6 s6 g6 => element "H" set_hours i6 s6 g6
                        (fun i7 s7 g7 => element "M" set_minutes i7 s7 g7
                        (fun i8 s8 g8 => element "S" set_seconds i8 s8 g8 k))))
                   i5 s5 g5
                   (fun i9 s9 g9 => eos i9 s9 g9 (fun _ _ c => Some c)))))))
            = Some r) as (sign & g0 & s0 & -> & Hsign & -> & i0 & H0).
  { apply alt_Some in H as [H | H].
    - unfold capture in H. apply chr_Some in H as (s0 & -> & H).
      change (substring 0 (1 - 0) (String "-" s0))
        with (substring 0 (String.length "-") ("-" +:+ s0)) in H.
      rewrite substring_prefix in H.
      exists (Some "-"%string), (set_negative "-" no_groups), s0.
      repeat split; auto. exists 1%nat. exact H.
    - exists None, no_groups, input. repeat split; auto. exists 0%nat. exact H. }
  clear H.
  apply chr_Some in H0 as (s1 & -> & H).
  apply element_sound in H as (qY & s2 & i2 & -> & HY & H).
  apply element_sound in H as (qM & s3 & i3 & -> & HM & H).
  apply element_sound in H as (qW & s4 & i4 & -> & HW & H).
  apply element_sound in H as (qD & s5 & i5 & -> & HD & H).
  unfold opt in H. apply alt_Some in H as [H | H].
  - apply chr_Some in H as (s6 & -> & H).
    apply element_sound in H as (qH & s7 & i7 & -> & HH & H).
    apply element_sound in H as (qMi & s8 & i8 & -> & HMi & H).
    apply element_sound in H as (qS & s9 & i9 & -> & HS & H).
    apply eos_Some in H as [-> H]. inversion H; subst r; clear H.
    split.
    { destruct Hsign; subst sign; destruct qY, qM, qW, qD, qH, qMi, qS; simpl; auto. }
    exists (String "T" (element_text "H" qH +:+ element_text "M" qMi +:+ element_text "S" qS +:+ "")).
    destruct Hsign; subst sign; destruct qY, qM, qW, qD, qH, qMi, qS;
      simpl in *; (split; [reflexivity |]); (split; [tauto |]); right; tauto.
  - unfold empty in H. apply eos_Some in H as [-> H]. inversion H; subst r; clear H.
    split.
    { destruct Hsign; subst sign; destruct qY, qM, qW, qD; simpl; auto. }
    exists "".
    destruct Hsign; subst sign; destruct qY, qM, qW, qD;
      simpl in *; (split; [reflexivity |]); (split; [tauto |]); left; tauto.
Qed.

(** ** Consequences of the grammar *)

Lemma quantity_shape_nonempty (v rest : string) : quantity_shape v rest -> v <> "".
Proof.
  intros [[Hv _] | [(d1 & c & d2 & -> & _) _]]; [assumption |].
  destruct d1; discriminate.
Qed.

Lemma element_not_only_T (X : ascii) (v rest : string) :
  v <> "" -> ~ only_T_left (element_text X (Some v) +:+ rest).
Proof.
  intros Hv [H | H]; destruct v as [|a v]; try congruence; simpl in H;
    try discriminate.
  inversion H as [[Ha H']]. destruct v; discriminate.
Qed.

(** In front of nothing, or of a lone [T], no quantity is present. *)
Lemma elements_only_T (l : list (ascii * option string)) (tail : string) :
  elements_shaped l tail -> only_T_left (elements_text l tail) ->
  forallb is_absent (List.map snd l) = true /\ only_T_left tail.
Proof.
  induction l as [|[X [v|]] l IH]; simpl; intros Hs Ht.
  - auto.
  - destruct Hs as [Hv _]. exfalso.
    eapply element_not_only_T; [eapply quantity_shape_nonempty; exact Hv | exact Ht].
  - destruct Hs as [_ Hs]. auto.
Qed.

Lemma shaped_fraction_last (l : list (ascii * option string)) (tail : string)
    (later : list (option string)) :
  elements_shaped l tail ->
  (only_T_left tail -> forallb is_absent later = true) ->
  fraction_last later = true ->
  fraction_last (List.map snd l ++ later) = true.
Proof.
  intros Hs Hlater Hfl. induction l as [|[X [v|]] l IH]; simpl in *.
  - assumption.
  - destruct Hs as [Hv Hs]. destruct (has_fraction v) eqn:Hf.
    + destruct Hv as [[_ Hd] | [_ Ht]].
      * rewrite (digits_no_fraction v Hd) in Hf. discriminate.
      * destruct (elements_only_T l tail Hs Ht) as [Hl Htail].
        rewrite forallb_app, Hl. simpl. auto.
    + auto.
  - destruct Hs as [_ Hs]. auto.
Qed.

Lemma absent_no_fractions (qs : list (option string)) :
  forallb is_absent qs = true -> count_fractions qs = 0%nat.
Proof.
  induction qs as [|[v|] qs IH]; simpl; [reflexivity | discriminate | exact IH].
Qed.

Lemma fraction_last_count (qs : list (option string)) :
  fraction_last qs = true -> (count_fractions qs <= 1)%nat.
Proof.
  induction qs as [|[v|] qs IH]; simpl; intros H; [lia | | auto].
  destruct (has_fraction v).
  - rewrite (absent_no_fractions qs H). lia.
  - apply IH in H. lia.
Qed.

Lemma duration_grammar_fraction_last (input : string) (g : Groups) :
  duration_grammar input g -> fraction_last (quantities g) = true.
Proof.
  intros (_ & ttail & _ & Hdate & Htime).
  change (quantities g)
    with (List.map snd (date_half g) ++ List.map snd (time_half g)).
  apply (shaped_fraction_last _ ttail); [exact Hdate | |].
  - intros Ht. destruct Htime as [(_ & Hh & Hm & Hsec) | (-> & Hs)].
    { unfold time_half. simpl. now rewrite Hh, Hm, Hsec. }
    destruct Ht as [Ht | Ht]; [discriminate |].
    apply (elements_only_T _ "" Hs). left. congruence.
  - destruct Htime as [(_ & Hh & Hm & Hsec) | (_ & Hs)].
    { unfold time_half. simpl. now rewrite Hh, Hm, Hsec. }
    rewrite <- (app_nil_r (List.map snd (time_half g))).
    apply (shaped_fraction_last _ ""); [exact Hs | reflexivity | reflexivity].
Qed.

(** *** Separators *)

Lemma good_tail_digits (ds : string) (X : ascii) (rest : string) :
  String_forall is_digit ds = true -> is_digit X = false ->
  good_tail (ds +:+ String X rest) = String.eqb rest "" || String.eqb rest "T".
Proof.
  intros Hds HX. induction ds as [|a ds IH]; simpl in *.
  - now rewrite HX.
  - apply andb_prop in Hds as [Ha Hds]. rewrite Ha. auto.
Qed.

Lemma seps_ok_digits (ds s : string) :
  String_forall is_digit ds = true -> seps_ok (ds +:+ s) = seps_ok s.
Proof.
  intros Hds. induction ds as [|a ds IH]; simpl in *; [reflexivity |].
  apply andb_prop in Hds as [Ha Hds].
  rewrite (digit_not_separator a Ha). simpl. auto.
Qed.

Lemma only_T_left_eqb (s : string) :
  only_T_left s -> String.eqb s "" || String.eqb s "T" = true.
Proof. intros [-> | ->]; reflexivity. Qed.

Lemma eqb_only_T_left (s : string) :
  String.eqb s "" || String.eqb s "T" = true -> only_T_left s.
Proof.
  intros [H | H]%orb_prop; apply String.eqb_eq in H; [left | right]; exact H.
Qed.

Lemma elements_seps_ok (l : list (ascii * option string)) (tail : string) :
  forallb (fun e => is_designator (fst e)) l = true ->
  elements_shaped l tail -> seps_ok tail = true ->
  seps_ok (elements_text l tail) = true.
Proof.
  intros Hl Hs Htail. induction l as [|[X [v|]] l IH]; simpl in *.
  - assumption.
  - apply andb_prop in Hl as [HX Hl]. destruct Hs as [Hv Hs].
    apply andb_prop in HX as [HXd HXs].
    apply negb_true_iff in HXd, HXs.
    specialize (IH Hl Hs). rewrite append_assoc. simpl.
    destruct Hv as [[_ Hd] | [(d1 & c & d2 & -> & Hd1 & Hc & _ & Hd2) Ht]].
    + rewrite (seps_ok_digits v _ Hd). simpl. now rewrite HXs.
    + rewrite append_assoc. simpl. rewrite (seps_ok_digits d1 _ Hd1). simpl.
      rewrite Hc, (good_tail_digits d2 X _ Hd2 HXd), (only_T_left_eqb _ Ht).
      rewrite (seps_ok_digits d2 _ Hd2). simpl. now rewrite HXs.
  - apply andb_prop in Hl as [_ Hl]. destruct Hs as [_ Hs]. auto.
Qed.

Lemma seps_ok_cons (a : ascii) (s : string) :
  is_separator a = false -> seps_ok (String a s) = seps_ok s.
Proof. intros Ha. simpl. now rewrite Ha. Qed.

Lemma duration_grammar_seps_ok (input : string) (g : Groups) :
  duration_grammar input g -> seps_ok input = true.
Proof.
  intros (Hsign & ttail & -> & Hdate & Htime).
  assert (Hrest : seps_ok (String "P" (elements_text (date_half g) ttail)) = true).
  { rewrite seps_ok_cons by reflexivity.
    apply elements_seps_ok; [reflexivity | exact Hdate |].
    destruct Htime as [(-> & _) | (-> & Hs)]; [reflexivity |].
    rewrite seps_ok_cons by reflexivity.
    apply elements_seps_ok; [reflexivity | exact Hs | reflexivity]. }
  destruct Hsign as [-> | ->]; unfold sign_text.
  - exact Hrest.
  - change ("-" +:+ ?x) with (String "-" x).
    rewrite seps_ok_cons by reflexivity. exact Hrest.
Qed.

Lemma seps_ok_at (pre : string) (c : ascii) (post : string) :
  seps_ok (pre +:+ String c post) = true -> is_separator c = true ->
  good_tail post = true.
Proof.
  intros H Hc. induction pre as [|a pre IH]; simpl in H.
  - rewrite Hc in H. now apply andb_prop in H as [H _].
  - apply andb_prop in H as [_ H]. auto.
Qed.

Lemma fraction_followed_not_ok (input : string) :
  fraction_followed input -> seps_ok input = false.
Proof.
  intros (pre & c & ds & X & rest & -> & Hc & Hds & HX & Hrest).
  destruct (seps_ok _) eqn:E; [| reflexivity]. exfalso.
  apply seps_ok_at in E; [| exact Hc].
  rewrite (good_tail_digits ds X rest Hds HX) in E.
  apply eqb_only_T_left in E as [-> | ->]; discriminate.
Qed.

(** ** The parser *)

Lemma isoDuration_Return (input : string) (path : Path) (ms : spec_float) :
  isoDuration input path = Return ms ->
  exists groups,
    exec ISO_DURATION_REGEXP no_groups input = Some groups /\
    ms = duration_of_groups groups.
Proof.
  unfold isoDuration. destruct (_ || _); [discriminate |].
  destruct (exec _ _ _) as [groups|]; [| discriminate].
  intros H. inversion H. eauto.
Qed.

Lemma isoDuration_outcome (input : string) (path : Path) :
  (exists ms, isoDuration input path = Return ms) \/
  isoDuration input path = Throw (duration_error path).
Proof.
  unfold isoDuration, duration_error. destruct (_ || _); [now right |].
  destruct (exec _ _ _); [left; eauto | now right].
Qed.

(** ** A [T] added at the end *)

Section TrailingT.

Context {C : Type}.
Implicit Types (k : @Continuation C) (m : @Matcher C).

Lemma T_blind_char_set (p : ascii -> bool) :
  p "T"%char = false -> T_blind (C := C) (char_set p).
Proof.
  intros Hp N k k' Hk i s c Hs Hi. destruct s as [|a s]; simpl in *.
  - now rewrite Hp.
  - apply andb_prop in Hs as [_ Hs].
    destruct (p a); [apply Hk; [exact Hs | lia] | reflexivity].
Qed.

Lemma T_blind_star_set (p : ascii -> bool) :
  p "T"%char = false -> T_blind (C := C) (star_set p).
Proof.
  intros Hp N k k' Hk i s. revert i.
  induction s as [|a s IH]; intros i c Hs Hi; pose proof Hs as Hs0; simpl in *.
  - rewrite Hp. now apply (Hk i "" c).
  - apply andb_prop in Hs as [Ha Hs].
    rewrite (IH (S i) c Hs) by lia.
    now rewrite (Hk i (String a s) c Hs0 Hi).
Qed.

Lemma T_blind_seq m1 m2 : T_blind m1 -> T_blind m2 -> T_blind (seq m1 m2).
Proof.
  intros H1 H2 N k k' Hk. unfold seq. apply (H1 N). now apply (H2 N).
Qed.

Lemma T_blind_alt m1 m2 : T_blind m1 -> T_blind m2 -> T_blind (alt m1 m2).
Proof.
  intros H1 H2 N k k' Hk i s c Hs Hi. unfold alt.
  rewrite (H1 N k k' Hk i s c Hs Hi), (H2 N k k' Hk i s c Hs Hi). reflexivity.
Qed.

Lemma T_blind_empty : T_blind (C := C) empty.
Proof. intros N k k' Hk. exact Hk. Qed.

Lemma T_blind_opt m : T_blind m -> T_blind (opt m).
Proof. intros H. apply T_blind_alt; [exact H | apply T_blind_empty]. Qed.

Lemma T_blind_bos : T_blind (C := C) bos.
Proof.
  intros N k k' Hk i s c Hs Hi. unfold bos. destruct i; [now apply Hk | reflexivity].
Qed.

Lemma T_blind_plus_set (p : ascii -> bool) :
  p "T"%char = false -> T_blind (C := C) (plus_set p).
Proof.
  intros Hp. apply T_blind_seq; [now apply T_blind_char_set | now apply T_blind_star_set].
Qed.

Lemma T_blind_capture (name : string -> C -> C) m :
  T_blind m -> T_blind (capture name m).
Proof.
  intros Hm N k k' Hk i s c Hs Hi. unfold capture.
  apply (Hm N); [| exact Hs | exact Hi].
  intros i' s' c' Hs' Hi'.
  rewrite substring_append_l by lia. now apply Hk.
Qed.

(** The lookahead [(?=designatorT?$)] sees the designator as the last
    character of the one text exactly when, in the other, only the added
    [T] follows it. *)
Lemma T_blind_designator_ahead (X : ascii) :
  Ascii.eqb X "T" = false ->
  T_blind (C := C) (lookahead (seq (chr X) (seq (opt (chr "T")) eos))).
Proof.
  intros HX N k k' Hk i s c Hs Hi.
  unfold lookahead, seq, opt, alt, chr, empty, eos, char_set.
  destruct s as [|a [|b s]]; pose proof Hs as Hs0; simpl in Hs;
    cbn [String.append].
  - now rewrite HX.
  - destruct (Ascii.eqb X a); [| reflexivity].
    rewrite Ascii.eqb_refl. apply (Hk i (String a "") c Hs0 Hi).
  - apply andb_prop in Hs as [_ [Hb _]%andb_prop].
    apply negb_true_iff in Hb. rewrite Ascii.eqb_sym in Hb. rewrite Hb.
    destruct (Ascii.eqb X a); reflexivity.
Qed.

End TrailingT.

Lemma separator_not_T : is_separator "T" = false.
Proof. reflexivity. Qed.

Lemma digit_not_T : is_digit "T" = false.
Proof. reflexivity. Qed.

Lemma T_blind_chr {C : Type} (x : ascii) :
  Ascii.eqb x "T" = false -> T_blind (C := C) (chr x).
Proof. intros Hx. now apply T_blind_char_set. Qed.

Lemma T_blind_element (X : ascii) (name : string -> Groups -> Groups) :
  Ascii.eqb X "T" = false -> T_blind (element X name).
Proof.
  intros HX. unfold element.
  apply T_blind_opt, T_blind_seq; [| now apply T_blind_chr].
  apply T_blind_capture, T_blind_alt; [| apply T_blind_plus_set, digit_not_T].
  apply T_blind_seq; [apply T_blind_star_set, digit_not_T |].
  apply T_blind_seq; [apply T_blind_char_set, separator_not_T |].
  apply T_blind_seq; [apply T_blind_plus_set, digit_not_T |].
  now apply T_blind_designator_ahead.
Qed.

(** The end of the pattern, [(?:T...)?$]: with nothing left both texts
    match, the one with the added [T] through the time half, which then
    finds no quantity. *)
Lemma time_half_agree (N : nat) :
  agree_T N
    (fun i s c =>
       seq (opt (seq (chr "T")
                   (seq (element "H" set_hours)
                      (seq (element "M" set_minutes) (element "S" set_seconds)))))
         eos i s c (fun _ _ c' => Some c'))
    (fun i s c =>
       seq (opt (seq (chr "T")
                   (seq (element "H" set_hours)
                      (seq (element "M" set_minutes) (element "S" set_seconds)))))
         eos i s c (fun _ _ c' => Some c')).
Proof.
  intros i s c Hs Hi. destruct s as [|a s].
  - reflexivity.
  - simpl in Hs. apply andb_prop in Hs as [Ha _].
    apply negb_true_iff in Ha. rewrite Ascii.eqb_sym in Ha.
    unfold seq, opt, alt, chr, char_set, empty, eos. cbn [String.append].
    now rewrite Ha.
Qed.

Lemma exec_trailing_T (s : string) :
  no_T s = true ->
  exec ISO_DURATION_REGEXP no_groups (s +:+ "T")
  = exec ISO_DURATION_REGEXP no_groups s.
Proof.
  intros Hs. unfold ISO_DURATION_REGEXP. rewrite !exec_bos. symmetry.
  set (N := String.length s).
  apply (T_blind_bos N); [| exact Hs | reflexivity].
  apply (T_blind_opt _ (T_blind_capture set_negative _ (T_blind_chr "-" eq_refl)) N).
  apply (T_blind_chr "P" eq_refl N).
  apply (T_blind_element "Y" set_years eq_refl N).
  apply (T_blind_element "M" set_months eq_refl N).
  apply (T_blind_element "W" set_weeks eq_refl N).
  apply (T_blind_element "D" set_days eq_refl N).
  apply time_half_agree.
Qed.

Lemma no_T_append_T (s : string) : no_T (s +:+ "T") = false.
Proof.
  unfold no_T. induction s as [|a s IH]; simpl; [reflexivity |].
  now rewrite IH, andb_false_r.
Qed.

Lemma append_T_inj (s s' : string) : s +:+ "T" = s' +:+ "T" -> s = s'.
Proof.
  revert s'. induction s as [|a s IH]; intros [|a' s'] H; simpl in H.
  - reflexivity.
  - inversion H as [[Ha H']]. destruct s'; discriminate.
  - inversion H as [[Ha H']]. destruct s; discriminate.
  - inversion H as [[Ha H']]. f_equal. now apply IH.
Qed.

(** The test for the four empty forms, on a text without [T] and on the
    text with [T] added. *)
Lemma empty_forms_trailing_T (s : string) :
  no_T s = true -> s <> "P" -> s <> "-P" ->
  String.eqb s "P" || String.eqb s "PT"
    || String.eqb s "-P" || String.eqb s "-PT" = false /\
  String.eqb (s +:+ "T") "P" || String.eqb (s +:+ "T") "PT"
    || String.eqb (s +:+ "T") "-P" || String.eqb (s +:+ "T") "-PT" = false.
Proof.
  intros Hs HP HmP.
  assert (HT : forall t, no_T t = true -> s +:+ "T" <> t).
  { intros t Ht E. rewrite <- E, no_T_append_T in Ht. discriminate. }
  split; rewrite !orb_false_iff; repeat split; apply String.eqb_neq.
  - exact HP.
  - intros ->. discriminate.
  - exact HmP.
  - intros ->. discriminate.
  - now apply HT.
  - intros E. apply HP, append_T_inj. exact E.
  - now apply HT.
  - intros E. apply HmP, append_T_inj. exact E.
Qed.

Lemma isoDuration_trailing_T (s : string) (path : Path) :
  no_T s = true -> s <> "P" -> s <> "-P" ->
  isoDuration (s +:+ "T") path = isoDuration s path.
Proof.
  intros Hs HP HmP. unfold isoDuration.
  destruct (empty_forms_trailing_T s Hs HP HmP) as [-> ->].
  now rewrite exec_trailing_T.
Qed.

Lemma no_T_append (a b : string) : no_T (a +:+ b) = no_T a && no_T b.
Proof.
  unfold no_T. induction a as [|x a IH]; simpl; [reflexivity |].
  now rewrite IH, andb_assoc.
Qed.

Lemma no_T_elements (l : list (ascii * option string)) (tail : string) :
  no_T (elements_text l tail) = true -> no_T tail = true.
Proof.
  induction l as [|[X q] l IH]; simpl; [auto |].
  rewrite no_T_append. intros [_ H]%andb_prop. auto.
Qed.

(** A text without [T] that matches has no time half. *)
Lemma duration_grammar_no_T (s : string) (g : Groups) :
  no_T s = true -> duration_grammar s g ->
  forallb is_absent (List.map snd (time_half g)) = true /\
  s = sign_text (negative g) +:+ String "P" (elements_text (date_half g) "").
Proof.
  intros Hs (Hsign & ttail & -> & _ & Htime).
  rewrite no_T_append in Hs. apply andb_prop in Hs as [_ Hs].
  change (String "P" ?x) with ("P" +:+ x) in Hs.
  rewrite no_T_append in Hs. apply andb_prop in Hs as [_ Hs].
  apply no_T_elements in Hs.
  destruct Htime as [(-> & Hh & Hm & Hsec) | (-> & _)]; [| discriminate].
  split; [| reflexivity]. unfold time_half. simpl. now rewrite Hh, Hm, Hsec.
Qed.

(** ** The claims about the duration parser *)

(** C2: in every text [isoDuration] accepts, no quantity is present
    after a quantity with a fractional part, in the whole duration: at
    most one of the seven quantities has a fractional part, and it is the
    last one present.  Every text in which a fractional quantity is
    followed by a further quantity, such as P2.4Y3M and
    P3Y6M2W4DT12H30.4M5S, is rejected with the message that the value at
    the path must be a valid ISO 8601 duration. *)
Theorem isoDuration_fraction_is_last : forall (input : string) (path : Path),
  (forall ms, isoDuration input path = Return ms ->
     exists groups,
       exec ISO_DURATION_REGEXP no_groups input = Some groups /\
       ms = duration_of_groups groups /\
       fraction_last (quantities groups) = true /\
       (count_fractions (quantities groups) <= 1)%nat) /\
  (fraction_followed input ->
     isoDuration input path = Throw (duration_error path)) /\
  isoDuration "P2.4Y3M" path = Throw (duration_error path) /\
  isoDuration "P3Y6M2W4DT12H30.4M5S" path = Throw (duration_error path).
Proof.
  intros input path. split; [| split; [| split; reflexivity]].
  - intros ms H. apply isoDuration_Return in H as (groups & Hexec & ->).
    exists groups. pose proof (ISO_DURATION_REGEXP_sound _ _ Hexec) as Hg.
    pose proof (duration_grammar_fraction_last _ _ Hg) as Hlast.
    repeat split; [exact Hexec | exact Hlast | now apply fraction_last_count].
  - intros Hf. destruct (isoDuration_outcome input path) as [[ms H] | H]; [| exact H].
    apply isoDuration_Return in H as (groups & Hexec & _).
    apply ISO_DURATION_REGEXP_sound, duration_grammar_seps_ok in Hexec.
    rewrite (fraction_followed_not_ok input Hf) in Hexec. discriminate.
Qed.

Lemma isoDuration_fraction_is_last_witness :
  (exists groups,
     exec ISO_DURATION_REGEXP no_groups "P3Y6M2.2W" = Some groups /\
     Number.of_Z 111490560000 = duration_of_groups groups /\
     fraction_last (quantities groups) = true /\
     (count_fractions (quantities groups) <= 1)%nat) /\
  isoDuration "P2.4Y3M" [SegString "test"]
  = Throw (duration_error [SegString "test"]).
Proof.
  split.
  - apply (proj1 (isoDuration_fraction_is_last "P3Y6M2.2W" [])).
    vm_compute. reflexivity.
  - apply (proj1 (proj2 (isoDuration_fraction_is_last "P2.4Y3M" [SegString "test"]))).
    exists "P2", "."%char, "4", "Y"%char, "3M". repeat split; reflexivity.
Defined.

(** C3, as the specification states it, fails: [isoDuration] does not accept
    P3Y6M2W4.4DT12H. *)
Lemma isoDuration_date_fraction_then_time_rejected :
  ~ (exists ms, isoDuration "P3Y6M2W4.4DT12H" [SegString "test"] = Return ms).
Proof. intros [ms H]. vm_compute in H. discriminate. Qed.

(** C3, amended: [isoDuration] rejects P3Y6M2W4.4DT12H.  A quantity of the
    date half with a fractional part is accepted only when no quantity
    of the time half is present; a [T] with nothing after it may follow
    it, as in P3Y6M2W4.4DT, which is accepted like P3Y6M2W4.4D. *)
Theorem isoDuration_date_fraction_excludes_time :
  forall (input : string) (path : Path),
  isoDuration "P3Y6M2W4.4DT12H" path = Throw (duration_error path) /\
  isoDuration "P3Y6M2W4.4DT" path = Return (Number.of_Z 111749760000) /\
  isoDuration "P3Y6M2W4.4D" path = Return (Number.of_Z 111749760000) /\
  (forall ms, isoDuration input path = Return ms ->
     exists groups,
       exec ISO_DURATION_REGEXP no_groups input = Some groups /\
       (existsb (fun q => match q with Some v => has_fraction v | None => false end)
          (List.map snd (date_half groups)) = true ->
        hours groups = None /\ minutes groups = None /\ seconds groups = None)).
Proof.
  intros input path.
  split; [reflexivity |]. split; [vm_compute; reflexivity |].
  split; [vm_compute; reflexivity |].
  intros ms H. apply isoDuration_Return in H as (groups & Hexec & _).
  exists groups. split; [exact Hexec |].
  apply ISO_DURATION_REGEXP_sound, duration_grammar_fraction_last in Hexec.
  revert Hexec. unfold quantities, date_half. simpl.
  destruct (years groups) as [y|], (months groups) as [m|],
    (weeks groups) as [w|], (days groups) as [d|],
    (hours groups) as [h|], (minutes groups) as [mi|],
    (seconds groups) as [sec|]; simpl;
    repeat match goal with
      | |- context [has_fraction ?v] => destruct (has_fraction v); simpl
      end; intros; auto; discriminate.
Qed.

Lemma isoDuration_date_fraction_excludes_time_witness :
  exists groups,
    exec ISO_DURATION_REGEXP no_groups "P3Y6M2W4.4DT" = Some groups /\
    (existsb (fun q => match q with Some v => has_fraction v | None => false end)
       (List.map snd (date_half groups)) = true ->
     hours groups = None /\ minutes groups = None /\ seconds groups = None).
Proof.
  apply (proj2 (proj2 (proj2
    (isoDuration_date_fraction_excludes_time "P3Y6M2W4.4DT" [])))
    (Number.of_Z 111749760000)).
  vm_compute. reflexivity.
Defined.

(** C10: when a text without [T] is accepted (it then has a quantity of
    the date half and none of the time half), the same text with a
    [T] added at its end is accepted too, with the same groups and the
    same number of milliseconds; of the texts that end this way only the
    empty forms are turned down: P, PT, -P and -PT are rejected. *)
Theorem isoDuration_trailing_T_same_value :
  forall (s : string) (path : Path) (ms : spec_float),
  no_T s = true ->
  isoDuration s path = Return ms ->
  isoDuration (s +:+ "T") path = Return ms /\
  (exists groups,
     exec ISO_DURATION_REGEXP no_groups s = Some groups /\
     exec ISO_DURATION_REGEXP no_groups (s +:+ "T") = Some groups /\
     forallb is_absent (List.map snd (date_half groups)) = false /\
     forallb is_absent (List.map snd (time_half groups)) = true) /\
  isoDuration "P" path = Throw (duration_error path) /\
  isoDuration "PT" path = Throw (duration_error path) /\
  isoDuration "-P" path = Throw (duration_error path) /\
  isoDuration "-PT" path = Throw (duration_error path).
Proof.
  intros s path ms Hs H.
  assert (HP : s <> "P") by (intros ->; discriminate).
  assert (HmP : s <> "-P") by (intros ->; discriminate).
  split; [now rewrite isoDuration_trailing_T |].
  split; [| repeat split; reflexivity].
  apply isoDuration_Return in H as (groups & Hexec & _).
  exists groups. split; [exact Hexec |].
  split; [now rewrite exec_trailing_T |].
  pose proof (ISO_DURATION_REGEXP_sound _ _ Hexec) as Hg.
  destruct (duration_grammar_no_T s groups Hs Hg) as [Htime Htext].
  split; [| exact Htime].
  destruct Hg as (Hsign & _).
  destruct (forallb is_absent (List.map snd (date_half groups))) eqn:E; [| reflexivity].
  exfalso. unfold date_half in *. simpl in E, Htext.
  destruct (years groups), (months groups), (weeks groups), (days groups);
    try discriminate.
  simpl in Htext. destruct Hsign as [Hn | Hn]; rewrite Hn in Htext; simpl in Htext;
    [apply HP | apply HmP]; exact Htext.
Qed.

Lemma isoDuration_trailing_T_same_value_witness :
  isoDuration "P3Y6M2W4DT" [] = Return (Number.of_Z 111715200000) /\
  isoDuration "P3Y6M2W4.4DT" [] = Return (Number.of_Z 111749760000).
Proof.
  split.
  - apply (isoDuration_trailing_T_same_value "P3Y6M2W4D" [] (Number.of_Z 111715200000)).
    + reflexivity.
    + vm_compute. reflexivity.
  - apply (isoDuration_trailing_T_same_value "P3Y6M2W4.4D" [] (Number.of_Z 111749760000)).
    + reflexivity.
    + vm_compute. reflexivity.
Defined.

(** ** The entry point and the combinators *)

(** C5: [validate] calls the parser with the empty path.  It returns true
    exactly when the parser returns, false exactly when the parser throws
    a [ParserError], and it throws exactly what the parser throws when
    that is anything else; it never throws a [ParserError] itself. *)
Theorem validate_outcome :
  forall (I O : Type) (input : I) (V : Parser I O),
  (validate input V = Return true <-> exists output, V input [] = Return output) /\
  (validate input V = Return false <->
     exists path message, V input [] = Throw (ParserError path message)) /\
  (forall description,
     validate input V = Throw (OtherError description) <->
     V input [] = Throw (OtherError description)) /\
  (forall path message, validate input V <> Throw (ParserError path message)).
Proof.
  intros I O input V. unfold validate.
  destruct (V input []) as [output | [path message | description]]; simpl;
    (split; [| split; [| split]]).
  - split; eauto.
  - split; [discriminate | intros (p & m & H); discriminate].
  - intros d. split; discriminate.
  - intros p m. discriminate.
  - split; [discriminate | intros (o & H); discriminate].
  - split; eauto.
  - intros d. split; discriminate.
  - intros p m. discriminate.
  - split; [discriminate | intros (o & H); discriminate].
  - split; [discriminate | intros (p & m & H); discriminate].
  - intros d. split; intros H; inversion H; reflexivity.
  - intros p m. discriminate.
Qed.

Lemma pipe_Return_iff {T : Type} (path : Path) (parsers : list (Parser T T)) :
  forall (value output : T),
  pipe parsers value path = Return output <->
  exists outputs, runs_in_order path parsers value outputs /\
                  last (value :: outputs) = Some output.
Proof.
  induction parsers as [|p ps IH]; intros value output; simpl.
  - split.
    + intros H. inversion H; subst. exists []. split; [| reflexivity].
      split; [reflexivity |]. intros i stage received Hi. discriminate.
    + intros ([|o os] & [Hlen _] & Hlast); [| discriminate].
      simpl in Hlast. congruence.
  - split.
    + intros H. destruct (p value path) as [v'|e] eqn:Hp; simpl in H; [| discriminate].
      apply IH in H as (os & [Hlen Hrun] & Hlast).
      exists (v' :: os). split; [split |].
      * simpl. now rewrite Hlen.
      * intros [|i] stage received Hs Hr; simpl in *.
        -- inversion Hs; inversion Hr; subst. eauto.
        -- eauto.
      * exact Hlast.
    + intros ([|v' os] & [Hlen Hrun] & Hlast); [discriminate |].
      destruct (Hrun 0%nat p value eq_refl eq_refl) as (r & Hr & Hp).
      simpl in Hr. inversion Hr; subst r. rewrite Hp. simpl.
      apply IH. exists os. split; [split |].
      * simpl in Hlen. lia.
      * intros i stage received Hs Hrec. apply (Hrun (S i) stage received Hs Hrec).
      * exact Hlast.
Qed.

Lemma pipe_app {T : Type} (path : Path) (before after : list (Parser T T)) :
  forall value : T,
  pipe (before ++ after) value path
  = (mid <- pipe before value path ;; pipe after mid path).
Proof.
  induction before as [|p ps IH]; intros value; simpl; [reflexivity |].
  destruct (p value path); simpl; [apply IH | reflexivity].
Qed.

Lemma pipe_Throw_iff {T : Type} (path : Path) (parsers : list (Parser T T)) :
  forall (value : T) (error : Exception),
  pipe parsers value path = Throw error <->
  exists before stage after mid,
    parsers = before ++ stage :: after /\
    pipe before value path = Return mid /\
    stage mid path = Throw error.
Proof.
  induction parsers as [|p ps IH]; intros value error; simpl.
  - split; [discriminate |].
    intros (before & stage & after & mid & H & _). destruct before; discriminate.
  - split.
    + intros H. destruct (p value path) as [v'|e] eqn:Hp; simpl in H.
      * apply IH in H as (before & stage & after & mid & -> & Hb & Hs).
        exists (p :: before), stage, after, mid. simpl. rewrite Hp. auto.
      * inversion H; subst e. exists [], p, ps, value. auto.
    + intros (before & stage & after & mid & Heq & Hb & Hs).
      change (pipe (p :: ps) value path = Throw error).
      rewrite Heq, pipe_app, Hb. simpl. now rewrite Hs.
Qed.

(** C6: [pipe] of no parser returns its input at every path, [pipe] of
    one parser is that parser, and a chain runs its stages in the order
    given, each on what the stage before it returned and all at the same
    path; the first stage that throws ends the chain with what it threw. *)
Theorem pipe_runs_stages_in_order :
  forall (T : Type) (f : Parser T T) (parsers : list (Parser T T))
         (value : T) (path : Path),
  pipe [] value path = Return value /\
  pipe [f] value path = f value path /\
  (forall output,
     pipe parsers value path = Return output <->
     exists outputs, runs_in_order path parsers value outputs /\
                     last (value :: outputs) = Some output) /\
  (forall error,
     pipe parsers value path = Throw error <->
     exists before stage after outputs mid,
       parsers = before ++ stage :: after /\
       runs_in_order path before value outputs /\
       last (value :: outputs) = Some mid /\
       stage mid path = Throw error).
Proof.
  intros T f parsers value path.
  split; [reflexivity |]. split; [simpl; now destruct (f value path) |].
  split; [apply pipe_Return_iff |].
  intros error. rewrite pipe_Throw_iff. split.
  - intros (before & stage & after & mid & Heq & Hb & Hs).
    apply pipe_Return_iff in Hb as (outputs & Hrun & Hlast).
    exists before, stage, after, outputs, mid. auto.
  - intros (before & stage & after & outputs & mid & Heq & Hrun & Hlast & Hs).
    exists before, stage, after, mid. repeat split; [exact Heq | | exact Hs].
    apply pipe_Return_iff. eauto.
Qed.

(** C8: [map] returns the value the table has for the input whenever
    the input is a key of the table, also when that value is
    [undefined]; it succeeds for no other input.  For an input that is
    not a key it throws a [ParserError] at the path, with the message
    that the value at the path is an unknown value, or with the message
    of the message source when there is one (and whatever a message
    function throws, when it throws). *)
Theorem map_succeeds_iff_key_present :
  forall (I : Type) `(Countable I) (table : gmap I Value)
         (messageSource : option (MessageSource I)) (input : I) (path : Path),
  ((exists output, map table messageSource input path = Return output) <->
   is_Some (table !! input)) /\
  map table messageSource input path =
    match table !! input with
    | Some output => Return output
    | None =>
        match messageSource with
        | None =>
            Throw (ParserError path (formatPath path +:+ " is an unknown value"))
        | Some (MessageText message) => Throw (ParserError path message)
        | Some (MessageFunction f) =>
            match f input path with
            | Return message => Throw (ParserError path message)
            | Throw error => Throw error
            end
        end
    end /\
  map (<[input := VUndefined]> table) messageSource input path = Return VUndefined.
Proof.
  intros I EqI CountI table messageSource input path.
  assert (Heq : map table messageSource input path =
    match table !! input with
    | Some output => Return output
    | None =>
        match messageSource with
        | None =>
            Throw (ParserError path (formatPath path +:+ " is an unknown value"))
        | Some (MessageText message) => Throw (ParserError path message)
        | Some (MessageFunction f) =>
            match f input path with
            | Return message => Throw (ParserError path message)
            | Throw error => Throw error
            end
        end
    end).
  { unfold map, Map_get, Map_has.
    destruct (table !! input) as [output|] eqn:E; simpl.
    - now rewrite andb_false_r.
    - destruct messageSource as [[message | f]|]; simpl; try reflexivity.
      destruct (f input path); reflexivity. }
  split; [| split; [exact Heq |]].
  - rewrite Heq. destruct (table !! input) as [output|]; split.
    + eauto.
    + eauto.
    + intros [output H]. exfalso.
      destruct messageSource as [[message | f]|]; try discriminate.
      destruct (f input path); discriminate.
    + intros [x Hx]. discriminate.
  - unfold map, Map_get, Map_has. rewrite lookup_insert_eq. reflexivity.
Qed.

(** *** Paths *)

Lemma formatPath_loop_later (path : Path) : forall (i : nat) (str : string),
  formatPath_loop (S i) path str = str +:+ later_texts path.
Proof.
  induction path as [|segment rest IH]; intros i str; simpl.
  - now rewrite append_empty_r.
  - rewrite IH, append_assoc. destruct segment; reflexivity.
Qed.

Lemma first_string_bare_later (path : Path) :
  first_string_bare true path = later_texts path.
Proof.
  induction path as [|segment rest IH]; [reflexivity |].
  destruct segment; simpl; rewrite IH; reflexivity.
Qed.

Lemma string_of_uint_digits (d : Decimal.uint) :
  String_forall is_digit (NilEmpty.string_of_uint d) = true.
Proof. induction d; simpl; auto. Qed.

Lemma Number_toString_digits (n : N) :
  String_forall is_digit (Number_toString n) = true /\ Number_toString n <> "".
Proof.
  unfold Number_toString, NilZero.string_of_uint.
  pose proof (string_of_uint_digits (N.to_uint n)) as H.
  destruct (N.to_uint n); (split; [first [reflexivity | exact H] | discriminate]).
Qed.

(** C7, as the specification states it, fails: in the path of the property foo
    of the element at index 42, the first string segment is not bare. *)
Lemma formatPath_first_string_after_index :
  formatPath [SegNumber 42; SegString "foo"]
  <> formatPath_as_stated [SegNumber 42; SegString "foo"].
Proof. intros H. vm_compute in H. discriminate. Qed.

(** C7, amended: for a path whose number segments are non-negative
    safe integers (below 2^53), as array indices are, [formatPath]
    renders the path between two double quotes; a string segment is bare
    when it is the head of the path and has a dot before it at every
    later place (also when it is the first string segment but comes
    after an index or a symbol), an index is its decimal digits in
    brackets, a symbol its display form in brackets; the empty path is
    rendered as two double quotes.  For a path that begins with a string
    segment this is the rendering the specification describes. *)
Theorem formatPath_renders_segments : forall (path : Path),
  forallb prints_as_digits path = true ->
  formatPath path =
    String dquote
      (match path with
       | [] => ""
       | segment :: rest => head_text segment +:+ later_texts rest
       end +:+ String dquote "") /\
  (forall s rest,
     path = SegString s :: rest -> formatPath path = formatPath_as_stated path) /\
  (forall n, In (SegNumber n) path ->
             (n < 2 ^ 53)%N /\
             String_forall is_digit (Number_toString n) = true /\
             Number_toString n <> "") /\
  formatPath [] = String dquote (String dquote "") /\
  formatPath [SegString "foo"] = String dquote ("foo" +:+ String dquote "") /\
  formatPath [SegString "foo"; SegString "bar"; SegNumber 42; SegSymbol "test"]
  = String dquote ("foo.bar[42][Symbol(test)]" +:+ String dquote "") /\
  formatPath [SegNumber 42; SegString "foo"]
  = String dquote ("[42].foo" +:+ String dquote "").
Proof.
  intros path Hpath.
  assert (Heq : formatPath path =
    String dquote
      (match path with
       | [] => ""
       | segment :: rest => head_text segment +:+ later_texts rest
       end +:+ String dquote "")).
  { unfold formatPath. destruct path as [|segment rest]; [reflexivity |].
    simpl. rewrite formatPath_loop_later. simpl. rewrite !append_assoc.
    destruct segment; reflexivity. }
  split; [exact Heq |].
  split; [| split; [| repeat split; reflexivity]].
  - intros s rest ->. rewrite Heq. unfold formatPath_as_stated. simpl.
    now rewrite first_string_bare_later.
  - intros n Hin. split; [| apply Number_toString_digits].
    rewrite List.forallb_forall in Hpath. specialize (Hpath _ Hin).
    simpl in Hpath. now apply N.ltb_lt.
Qed.

Lemma formatPath_renders_segments_witness :
  formatPath [SegString "test"; SegNumber 0; SegString "baz"]
  = formatPath_as_stated [SegString "test"; SegNumber 0; SegString "baz"] /\
  String_forall is_digit (Number_toString 0) = true.
Proof.
  destruct (formatPath_renders_segments
              [SegString "test"; SegNumber 0; SegString "baz"] eq_refl)
    as (_ & Hstated & Hdigits & _).
  split.
  - apply (Hstated "test" [SegNumber 0; SegString "baz"]). reflexivity.
  - apply (Hdigits 0%N). simpl. tauto.
Defined.

(** *** Objects *)

Lemma lookup_set_property (key k : string) (x : Value) (props : list (string * Value)) :
  lookup_property k (set_property key x props)
  = if String.eqb key k then Some x else lookup_property k props.
Proof.
  induction props as [|[k0 y] rest IH]; simpl.
  - reflexivity.
  - destruct (String.eqb_spec k0 key) as [-> | Hne]; simpl.
    + destruct (String.eqb key k); reflexivity.
    + rewrite IH. destruct (String.eqb_spec k0 k) as [-> | Hne'].
      * destruct (String.eqb_spec key k) as [-> | _]; [congruence | reflexivity].
      * reflexivity.
Qed.

Lemma object_unknown_first (parser : ObjectParser) (path : Path) (keys : list string) :
  object_unknown parser path keys =
  match first_unknown parser keys with
  | Some key => Throw (not_supported path key)
  | None => Return tt
  end.
Proof.
  unfold first_unknown. induction keys as [|key rest IH]; simpl; [reflexivity |].
  destruct (negb (hasOwn parser key)); [reflexivity | exact IH].
Qed.

Lemma object_fields_validate (parser : ObjectParser) (input : Value) (path : Path) :
  forall acc,
  fields_validate parser input path ->
  exists output,
    object_fields parser input path acc = Return output /\
    forall key, is_Some (lookup_property key output) <->
                hasOwn parser key = true \/ is_Some (lookup_property key acc).
Proof.
  unfold fields_validate.
  induction parser as [|[name field] rest IH]; intros acc Hv; simpl.
  - exists acc. split; [reflexivity |]. intros key. split; [auto |].
    intros [H | H]; [discriminate | exact H].
  - inversion Hv as [|? ? [x Hx] Hrest]; subst. simpl in Hx. rewrite Hx. simpl.
    destruct (IH (set_property name x acc) Hrest) as (output & Hout & Hkeys).
    exists output. split; [exact Hout |].
    intros key. rewrite Hkeys, lookup_set_property.
    destruct (String.eqb name key); simpl; split; intros H; auto;
      try (right; eauto; fail); destruct H as [H | H]; auto.
Qed.

Lemma object_fields_Return (parser : ObjectParser) (input : Value) (path : Path) :
  forall acc output,
  object_fields parser input path acc = Return output ->
  fields_validate parser input path.
Proof.
  unfold fields_validate.
  induction parser as [|[name field] rest IH]; intros acc output H; simpl in H.
  - constructor.
  - destruct (field _ _) as [x|e] eqn:Hx; simpl in H; [| discriminate].
    constructor; [simpl; eauto | eapply IH; exact H].
Qed.

Lemma object_fields_Throw (before after : ObjectParser) (name : string)
    (field : Parser Value Value) (input : Value) (path : Path) (error : Exception) :
  forall acc,
  fields_validate before input path ->
  field (get_property input name) (path ++ [SegString name]) = Throw error ->
  object_fields (before ++ (name, field) :: after) input path acc = Throw error.
Proof.
  unfold fields_validate.
  induction before as [|[name0 field0] rest IH]; intros acc Hv Hf; simpl.
  - now rewrite Hf.
  - inversion Hv as [|? ? [x Hx] Hrest]; subst. simpl in Hx. rewrite Hx. simpl.
    now apply IH.
Qed.

(** C4: on an object, [object] looks for properties the shape does
    not declare only after every declared field has validated: when
    a declared field throws, that is what [object] throws, whatever else
    the input has.  When all declared fields validate and [ignoreUnknown]
    is false, [object] throws for the first property of the input, in
    enumeration order, that the shape does not declare: a [ParserError]
    at the path extended with that name, whose message says that this
    path is not supported; so for the shape of foo and bar and the input
    with foo, bar and baz at the path test.  When [ignoreUnknown] is true
    the result has the declared fields and no others. *)
Theorem object_rejects_unknown_properties :
  forall (parser : ObjectParser) (props : list (string * Value)) (path : Path),
  (forall before name field after error ignoreUnknown,
     parser = before ++ (name, field) :: after ->
     fields_validate before (VObject props) path ->
     field (get_property (VObject props) name) (path ++ [SegString name])
       = Throw error ->
     object parser ignoreUnknown (VObject props) path = Throw error) /\
  (fields_validate parser (VObject props) path ->
   exists output,
     object_fields parser (VObject props) path [] = Return output /\
     (forall key, is_Some (lookup_property key output) <-> hasOwn parser key = true) /\
     object parser true (VObject props) path = Return (VObject output) /\
     object parser false (VObject props) path =
       match first_unknown parser (List.map fst props) with
       | Some key => Throw (not_supported path key)
       | None => Return (VObject output)
       end) /\
  (forall (foo bar : Parser Value Value) (x1 x2 : Value),
     foo (VNumber (Number.of_Z 1)) [SegString "test"; SegString "foo"] = Return x1 ->
     bar (VNumber (Number.of_Z 2)) [SegString "test"; SegString "bar"] = Return x2 ->
     object [("foo"%string, foo); ("bar"%string, bar)] false
       (VObject [("foo"%string, VNumber (Number.of_Z 1));
                 ("bar"%string, VNumber (Number.of_Z 2));
                 ("baz"%string, VNumber (Number.of_Z 3))])
       [SegString "test"]
     = Throw (ParserError [SegString "test"; SegString "baz"]
                (String dquote ("test.baz" +:+ String dquote " is not supported")))).
Proof.
  intros parser props path. split; [| split].
  - intros before name field after error ignoreUnknown -> Hv Hf.
    unfold object. simpl.
    now rewrite (object_fields_Throw before after name field _ path error [] Hv Hf).
  - intros Hv.
    destruct (object_fields_validate parser (VObject props) path [] Hv)
      as (output & Hout & Hkeys).
    exists output. split; [exact Hout |]. split.
    { intros key. rewrite Hkeys. simpl. split; [| auto].
      intros [H | [x H]]; [exact H | discriminate]. }
    unfold object. simpl. rewrite Hout. simpl. split; [reflexivity |].
    rewrite object_unknown_first.
    destruct (first_unknown parser (List.map fst props)); reflexivity.
  - intros foo bar x1 x2 H1 H2. unfold object.
    cbn [is_null typeof String.eqb Ascii.eqb Bool.eqb orb negb object_fields bind
         get_property own_properties lookup_property default app].
    unfold id. rewrite H1. cbn [bind]. rewrite H2. reflexivity.
Qed.

Lemma object_rejects_unknown_properties_witness :
  object [("foo"%string, pass)] false
    (VObject [("foo"%string, VNumber (Number.of_Z 1));
              ("bar"%string, VNumber (Number.of_Z 42))]) [SegString "test"]
  = Throw (not_supported [SegString "test"] "bar") /\
  object [("foo"%string, pass)] true
    (VObject [("foo"%string, VNumber (Number.of_Z 1));
              ("bar"%string, VNumber (Number.of_Z 42))]) [SegString "test"]
  = Return (VObject [("foo"%string, VNumber (Number.of_Z 1))]) /\
  object [("foo"%string, pass); ("bar"%string, pass)] false
    (VObject [("foo"%string, VNumber (Number.of_Z 1));
              ("bar"%string, VNumber (Number.of_Z 2));
              ("baz"%string, VNumber (Number.of_Z 3))])
    [SegString "test"]
  = Throw (ParserError [SegString "test"; SegString "baz"]
             (String dquote ("test.baz" +:+ String dquote " is not supported"))).
Proof.
  assert (Hv : fields_validate [("foo"%string, pass)]
                 (VObject [("foo"%string, VNumber (Number.of_Z 1));
                           ("bar"%string, VNumber (Number.of_Z 42))])
                 [SegString "test"]).
  { constructor; [simpl; eauto | constructor]. }
  destruct (proj1 (proj2 (object_rejects_unknown_properties
              [("foo"%string, pass)]
              [("foo"%string, VNumber (Number.of_Z 1));
               ("bar"%string, VNumber (Number.of_Z 42))]
              [SegString "test"])) Hv)
    as (output & Hout & _ & Htrue & Hfalse).
  split; [exact Hfalse |]. split.
  - rewrite Htrue. simpl in Hout. inversion Hout. reflexivity.
  - apply (proj2 (proj2 (object_rejects_unknown_properties [] [] []))
             pass pass (VNumber (Number.of_Z 1)) (VNumber (Number.of_Z 2)));
      reflexivity.
Defined.

(** * Further facts about the library *)

(** ** Arrays *)

Lemma arrayOf_from_Return {I O : Type} (inner : Parser I O) (path : Path)
    (items : list I) : forall (n : N) (out : list O),
  lib.arrayOf_from inner path n items = Return out <->
  List.length out = List.length items /\
  forall i x, items !! i = Some x ->
    exists y, out !! i = Some y /\
              inner x (path ++ [SegNumber (n + N.of_nat i)]) = Return y.
Proof.
  induction items as [|x0 rest IH]; intros n out; simpl.
  - split.
    + intros H. inversion H; subst. split; [reflexivity |].
      intros i x Hi. discriminate.
    + intros [Hlen _]. destruct out; [reflexivity | discriminate].
  - split.
    + intros H. destruct (inner x0 _) as [y0|e] eqn:H0; simpl in H; [| discriminate].
      destruct (lib.arrayOf_from inner path (N.succ n) rest) as [ys|e] eqn:Hr;
        simpl in H; [| discriminate].
      inversion H; subst out. apply IH in Hr as [Hlen Hall].
      split; [simpl; now rewrite Hlen |].
      intros [|i] x Hx; simpl in *.
      * inversion Hx; subst x. exists y0. split; [reflexivity |].
        now rewrite N.add_0_r.
      * destruct (Hall i x Hx) as (y & Hy & Hin). exists y. split; [exact Hy |].
        match goal with
        | |- context [SegNumber ?a] =>
            replace a with (N.succ n + N.of_nat i)%N by lia
        end. exact Hin.
    + intros [Hlen Hall]. destruct out as [|y0 ys]; [discriminate |].
      destruct (Hall 0%nat x0 eq_refl) as (y & Hy & H0).
      simpl in Hy. inversion Hy; subst y. rewrite N.add_0_r in H0.
      rewrite H0. simpl.
      assert (Hr : lib.arrayOf_from inner path (N.succ n) rest = Return ys).
      { apply IH. split; [simpl in Hlen; lia |].
        intros i x Hx. destruct (Hall (S i) x Hx) as (y & Hy' & Hin).
        exists y. split; [exact Hy' |].
        replace (N.succ n + N.of_nat i)%N with (n + N.of_nat (S i))%N by lia.
        exact Hin. }
      now rewrite Hr.
Qed.

Lemma arrayOf_from_app {I O : Type} (inner : Parser I O) (path : Path)
    (before after : list I) : forall n : N,
  lib.arrayOf_from inner path n (before ++ after) =
  (xs <- lib.arrayOf_from inner path n before ;;
   ys <- lib.arrayOf_from inner path (n + N.of_nat (List.length before)) after ;;
   Return (xs ++ ys)).
Proof.
  induction before as [|x0 rest IH]; intros n; simpl.
  - rewrite N.add_0_r. destruct (lib.arrayOf_from inner path n after); reflexivity.
  - destruct (inner x0 _) as [y0|e]; simpl; [| reflexivity].
    rewrite IH.
    replace (n + N.of_nat (S (List.length rest)))%N
      with (N.succ n + N.of_nat (List.length rest))%N by lia.
    destruct (lib.arrayOf_from inner path (N.succ n) rest) as [xs|e]; simpl;
      [| reflexivity].
    destruct (lib.arrayOf_from inner path _ after); reflexivity.
Qed.

Lemma arrayOf_from_Throw {I O : Type} (inner : Parser I O) (path : Path)
    (items : list I) : forall (n : N) (error : Exception),
  lib.arrayOf_from inner path n items = Throw error <->
  exists before x after,
    items = before ++ x :: after /\
    (exists out, lib.arrayOf_from inner path n before = Return out) /\
    inner x (path ++ [SegNumber (n + N.of_nat (List.length before))]) = Throw error.
Proof.
  induction items as [|x0 rest IH]; intros n error; simpl.
  - split; [discriminate |].
    intros (before & x & after & H & _). destruct before; discriminate.
  - split.
    + intros H. destruct (inner x0 _) as [y0|e] eqn:H0; simpl in H.
      * destruct (lib.arrayOf_from inner path (N.succ n) rest) as [ys|e] eqn:Hr;
          simpl in H; [discriminate |].
        inversion H; subst e.
        apply IH in Hr as (before & x & after & -> & [out Hout] & Hx).
        exists (x0 :: before), x, after. split; [reflexivity |]. split.
        -- exists (y0 :: out). simpl. rewrite H0. simpl. now rewrite Hout.
        -- match goal with
           | |- context [SegNumber ?a] =>
               replace a with (N.succ n + N.of_nat (List.length before))%N
                 by (simpl List.length; lia)
           end. exact Hx.
      * inversion H; subst e. exists [], x0, rest. split; [reflexivity |].
        split; [exists []; reflexivity |]. simpl. now rewrite N.add_0_r.
    + intros (before & x & after & Heq & [out Hout] & Hx).
      change (lib.arrayOf_from inner path n (x0 :: rest) = Throw error).
      rewrite Heq, arrayOf_from_app, Hout. simpl. now rewrite Hx.
Qed.

(** X1: on an array, [arrayOf] returns exactly when [inner] returns for
    every element at the path extended with the index of the element;
    the result then has the length of the input and, at each index, what
    [inner] returned for the element at that index. *)
Theorem arrayOf_returns_elementwise :
  forall (I O : Type) (inner : Parser I O) (items : list I) (path : Path)
         (out : list O),
  lib.arrayOf inner (lib.IsArray items) path = Return out <->
  List.length out = List.length items /\
  forall i x, items !! i = Some x ->
    exists y, out !! i = Some y /\
              inner x (path ++ [SegNumber (N.of_nat i)]) = Return y.
Proof.
  intros I O inner items path out. unfold lib.arrayOf.
  rewrite arrayOf_from_Return. reflexivity.
Qed.

(** X2: [arrayOf] throws, on an array, exactly what [inner] throws for
    the first element it does not accept (every element before it was
    validated, none after it changes the result), at the path extended
    with the index of that element; on anything that is not an array it
    throws a [ParserError] at the path itself, which says that the value
    must be an array. *)
Theorem arrayOf_throws_first_failure :
  forall (I O : Type) (inner : Parser I O) (items : list I) (v : Value)
         (path : Path) (error : Exception),
  (lib.arrayOf inner (lib.IsArray items) path = Throw error <->
   exists before x after,
     items = before ++ x :: after /\
     (exists out, lib.arrayOf inner (lib.IsArray before) path = Return out) /\
     inner x (path ++ [SegNumber (N.of_nat (List.length before))]) = Throw error) /\
  lib.arrayOf inner (lib.NotArray v) path
  = Throw (ParserError path (formatPath path +:+ " must be an array")).
Proof.
  intros I O inner items v path error. split; [| reflexivity].
  unfold lib.arrayOf. rewrite arrayOf_from_Throw. reflexivity.
Qed.

(** ** Objects, further *)

Lemma set_property_fresh (key : string) (x : Value) (acc : list (string * Value)) :
  lookup_property key acc = None -> set_property key x acc = acc ++ [(key, x)].
Proof.
  induction acc as [|[k y] rest IH]; simpl; [reflexivity |].
  destruct (String.eqb k key); [discriminate |]. intros H. now rewrite IH.
Qed.

Lemma lookup_property_app_fresh (key k : string) (x : Value)
    (acc : list (string * Value)) :
  k <> key -> lookup_property key acc = None ->
  lookup_property key (acc ++ [(k, x)]) = None.
Proof.
  intros Hne. induction acc as [|[k0 y] rest IH]; simpl.
  - intros _. now apply String.eqb_neq in Hne as ->.
  - destruct (String.eqb k0 key); [discriminate | exact IH].
Qed.

(** What the loop over the shape adds to [acc], when the names of the
    shape are distinct and new to [acc]. *)
Lemma object_fields_distinct (parser : ObjectParser) (input : Value) (path : Path) :
  forall acc output,
  List.NoDup (List.map fst parser) ->
  (forall key, In key (List.map fst parser) -> lookup_property key acc = None) ->
  object_fields parser input path acc = Return output ->
  exists new,
    output = acc ++ new /\
    Forall2 (fun entry result =>
               fst result = fst entry /\
               snd entry (get_property input (fst entry))
                 (path ++ [SegString (fst entry)]) = Return (snd result))
            parser new.
Proof.
  induction parser as [|[name field] rest IH]; intros acc output Hnd Hfresh H;
    simpl in *.
  - inversion H; subst. exists []. split; [now rewrite app_nil_r | constructor].
  - destruct (field _ _) as [x|e] eqn:Hx; simpl in H; [| discriminate].
    apply NoDup_cons_iff in Hnd as [Hnotin Hnd].
    rewrite (set_property_fresh name x acc) in H by (apply Hfresh; now left).
    apply IH in H as (new & -> & Hall); [| exact Hnd |].
    + exists ((name, x) :: new). split; [now rewrite <- app_assoc |].
      constructor; [split; [reflexivity | exact Hx] | exact Hall].
    + intros key Hin. apply lookup_property_app_fresh.
      * intros ->. contradiction.
      * apply Hfresh. now right.
Qed.

Lemma object_Return (parser : ObjectParser) (ignoreUnknown : bool)
    (input result : Value) (path : Path) :
  object parser ignoreUnknown input path = Return result ->
  exists props output,
    input = VObject props /\ result = VObject output /\
    object_fields parser input path [] = Return output /\
    (ignoreUnknown = false ->
     first_unknown parser (List.map fst props) = None).
Proof.
  unfold object. destruct input as [| | b | x | s | props]; simpl; try discriminate.
  destruct (object_fields parser (VObject props) path []) as [output|e] eqn:Hf;
    simpl; [| discriminate].
  destruct ignoreUnknown; simpl.
  - intros H. inversion H. exists props, output.
    repeat (split; [reflexivity |]). discriminate.
  - rewrite object_unknown_first.
    destruct (first_unknown parser (List.map fst props)) eqn:Hu; simpl;
      [discriminate |].
    intros H. inversion H. exists props, output.
    repeat (split; [reflexivity |]). intros _. exact Hu.
Qed.

(** X3: for a shape of distinct names, none of them a name of
    [Object.prototype], the object [object] returns has exactly the
    declared fields, in the order in which the loop over the shape visits
    them (the order of an [ObjectParser]: integer-like names first, in
    ascending order, then the other names as declared), each with what
    its parser returned for the property of the input under that name,
    at the path extended with the name. *)
Theorem object_returns_declared_fields :
  forall (parser : ObjectParser) (ignoreUnknown : bool) (input result : Value)
         (path : Path),
  List.NoDup (List.map fst parser) ->
  plain_names parser = true ->
  object parser ignoreUnknown input path = Return result ->
  exists output,
    result = VObject output /\
    List.map fst output = List.map fst parser /\
    Forall2 (fun entry field =>
               fst field = fst entry /\
               snd entry (get_property input (fst entry))
                 (path ++ [SegString (fst entry)]) = Return (snd field))
            parser output.
Proof.
  intros parser ignoreUnknown input result path Hnd _ H.
  apply object_Return in H as (props & output & -> & -> & Hf & _).
  apply object_fields_distinct in Hf as (new & -> & Hall);
    [| exact Hnd | reflexivity].
  exists new. split; [reflexivity |]. split; [| exact Hall].
  clear Hnd. induction Hall as [|entry field parser' new' [Hk _] _ IH]; simpl;
    [reflexivity | now rewrite Hk, IH].
Qed.

Lemma object_returns_declared_fields_witness :
  exists output,
    VObject [("foo"%string, VNumber (Number.of_Z 1));
             ("bar"%string, VUndefined)] = VObject output /\
    List.map fst output = ["foo"%string; "bar"%string] /\
    Forall2 (fun entry field =>
               fst field = fst entry /\
               snd entry
                 (get_property (VObject [("foo"%string, VNumber (Number.of_Z 1));
                                         ("baz"%string, VNull)]) (fst entry))
                 ([SegString "test"] ++ [SegString (fst entry)])
               = Return (snd field))
            [("foo"%string, pass); ("bar"%string, pass)] output.
Proof.
  apply (object_returns_declared_fields
           [("foo"%string, pass); ("bar"%string, pass)] true
           (VObject [("foo"%string, VNumber (Number.of_Z 1));
                     ("baz"%string, VNull)])
           (VObject [("foo"%string, VNumber (Number.of_Z 1));
                     ("bar"%string, VUndefined)])
           [SegString "test"]).
  - repeat constructor; simpl; intuition discriminate.
  - reflexivity.
  - reflexivity.
Defined.

Lemma first_unknown_None (parser : ObjectParser) (keys : list string) :
  first_unknown parser keys = None <->
  forall key, In key keys -> hasOwn parser key = true.
Proof.
  unfold first_unknown. induction keys as [|k rest IH]; simpl.
  - split; [intros _ key [] | reflexivity].
  - destruct (hasOwn parser k) eqn:Hk; simpl.
    + rewrite IH. split.
      * intros H key [<- | Hin]; auto.
      * intros H key Hin. apply H. now right.
    + split; [discriminate |]. intros H.
      rewrite (H k) in Hk by now left. discriminate.
Qed.

(** X4: [ignoreUnknown] changes one outcome only.  What [object]
    returns without it, it returns with it too, and then every property
    of the input is declared; what it returns with it, it returns
    without it as soon as every property of the input is declared; and
    what it throws with it (for a value that is no object, or from a
    declared field), it throws without it.  [null] and whatever is not an
    object is rejected at the path itself, whatever the shape. *)
Theorem object_ignoreUnknown_only_drops :
  forall (parser : ObjectParser) (input : Value) (path : Path),
  (forall result,
     object parser false input path = Return result ->
     object parser true input path = Return result /\
     forall key, In key (List.map fst (own_properties input)) ->
                 hasOwn parser key = true) /\
  (forall result,
     object parser true input path = Return result ->
     (forall key, In key (List.map fst (own_properties input)) ->
                  hasOwn parser key = true) ->
     object parser false input path = Return result) /\
  (forall error,
     object parser true input path = Throw error ->
     object parser false input path = Throw error) /\
  ((forall props, input <> VObject props) ->
   forall ignoreUnknown,
     object parser ignoreUnknown input path
     = Throw (ParserError path (formatPath path +:+ " must be an object"))).
Proof.
  intros parser input path.
  destruct input as [| | b | x | s | props].
  1-5: (split; [intros r H; discriminate |];
        split; [intros r H; discriminate |];
        split; [intros e H; exact H |];
        intros _ flag; destruct flag; reflexivity).
  unfold object. simpl.
  destruct (object_fields parser (VObject props) path []) as [output|e]; simpl.
  - rewrite object_unknown_first.
    destruct (first_unknown parser (List.map fst props)) as [key|] eqn:Hu; simpl.
    + split; [intros r H; discriminate |]. split; [| split].
      * intros result Hr Hall. apply first_unknown_None in Hall.
        rewrite Hall in Hu. discriminate.
      * intros e H. discriminate.
      * intros H. exfalso. now apply (H props).
    + split; [| split; [| split]].
      * intros result Hr. split; [exact Hr | now apply first_unknown_None].
      * intros result Hr _. exact Hr.
      * intros e H. discriminate.
      * intros H. exfalso. now apply (H props).
  - split; [intros r H; discriminate |].
    split; [intros r H; discriminate |].
    split; [intros e' H; exact H |].
    intros H. exfalso. now apply (H props).
Qed.

Lemma object_ignoreUnknown_only_drops_witness :
  object [("foo"%string, pass)] true
    (VObject [("foo"%string, VNumber (Number.of_Z 1))]) [SegString "test"]
  = Return (VObject [("foo"%string, VNumber (Number.of_Z 1))]) /\
  object [("foo"%string, pass)] false VNull [SegString "test"]
  = Throw (ParserError [SegString "test"]
             (formatPath [SegString "test"] +:+ " must be an object")).
Proof.
  split.
  - apply (proj1 (object_ignoreUnknown_only_drops [("foo"%string, pass)]
                    (VObject [("foo"%string, VNumber (Number.of_Z 1))])
                    [SegString "test"])).
    reflexivity.
  - apply (proj2 (proj2 (proj2 (object_ignoreUnknown_only_drops
                    [("foo"%string, pass)] VNull [SegString "test"])))).
    intros props. discriminate.
Defined.

(** ** Optional fields *)

Lemma object_fields_optional (parser : ObjectParser) (input : Value) (path : Path) :
  Forall (fun entry => exists inner, snd entry = lib.optional inner None) parser ->
  (forall key, hasOwn parser key = true -> get_property input key = VUndefined) ->
  forall acc,
  exists output,
    object_fields parser input path acc = Return output /\
    forall key, lookup_property key output =
                if hasOwn parser key then Some VUndefined
                else lookup_property key acc.
Proof.
  induction parser as [|[name field] rest IH]; intros Hopt Habsent acc; simpl.
  - exists acc. split; reflexivity.
  - inversion Hopt as [|? ? [inner Hinner] Hrest]; subst. simpl in Hinner. subst field.
    unfold lib.optional at 1.
    rewrite (Habsent name) by (simpl; now rewrite String.eqb_refl). simpl.
    destruct (IH Hrest) with (acc := set_property name VUndefined acc)
      as (output & Hout & Hkeys).
    { intros key Hkey. apply Habsent. simpl. rewrite Hkey. apply orb_true_r. }
    exists output. split; [exact Hout |].
    intros key. rewrite Hkeys, lookup_set_property.
    destruct (String.eqb name key); simpl; [| reflexivity].
    now destruct (hasOwn rest key).
Qed.

Lemma object_fields_optional_same (parser : ObjectParser) (input input' : Value)
    (path : Path) :
  Forall (fun entry => exists inner, snd entry = lib.optional inner None) parser ->
  (forall key, hasOwn parser key = true -> get_property input key = VUndefined) ->
  (forall key, hasOwn parser key = true -> get_property input' key = VUndefined) ->
  forall acc,
  object_fields parser input path acc = object_fields parser input' path acc.
Proof.
  induction parser as [|[name field] rest IH]; intros Hopt H1 H2 acc; simpl.
  - reflexivity.
  - inversion Hopt as [|? ? [inner Hinner] Hrest]; subst. simpl in Hinner. subst field.
    unfold lib.optional at 1 2.
    rewrite (H1 name), (H2 name) by (simpl; now rewrite String.eqb_refl). simpl.
    apply IH; [exact Hrest | |]; intros key Hkey; [apply H1 | apply H2];
      simpl; rewrite Hkey; apply orb_true_r.
Qed.

(** X5: an optional field takes the place of a missing property.  When
    every declared field is [optional] without a default, no declared
    name is a name of [Object.prototype] (the input would inherit a
    property of that name), and the input has none of the declared
    properties (or has them as [undefined]), [object] with
    [ignoreUnknown] returns the object that has every declared name with
    the value [undefined] and nothing else, whatever the inner parsers
    are; so does [object] without [ignoreUnknown] on the empty object. *)
Theorem object_of_optionals_accepts_missing :
  forall (parser : ObjectParser) (props : list (string * Value)) (path : Path),
  Forall (fun entry => exists inner, snd entry = lib.optional inner None) parser ->
  plain_names parser = true ->
  (forall key, hasOwn parser key = true ->
               get_property (VObject props) key = VUndefined) ->
  exists output,
    object parser true (VObject props) path = Return (VObject output) /\
    object parser false (VObject []) path = Return (VObject output) /\
    forall key, lookup_property key output =
                if hasOwn parser key then Some VUndefined else None.
Proof.
  intros parser props path Hopt _ Habsent.
  destruct (object_fields_optional parser (VObject props) path Hopt Habsent [])
    as (output & Hout & Hkeys).
  assert (Hout' : object_fields parser (VObject []) path [] = Return output).
  { rewrite <- Hout. apply object_fields_optional_same; [exact Hopt | | exact Habsent].
    reflexivity. }
  exists output. unfold object. simpl. rewrite Hout, Hout'. simpl.
  split; [reflexivity | split; [reflexivity | exact Hkeys]].
Qed.

Lemma object_of_optionals_accepts_missing_witness :
  exists output,
    object [("foo"%string, lib.optional lib.string None);
            ("bar"%string, lib.optional lib.boolean None)] true
      (VObject [("baz"%string, VNull)]) [SegString "test"]
    = Return (VObject output) /\
    object [("foo"%string, lib.optional lib.string None);
            ("bar"%string, lib.optional lib.boolean None)] false
      (VObject []) [SegString "test"]
    = Return (VObject output) /\
    forall key, lookup_property key output =
                if hasOwn [("foo"%string, lib.optional lib.string None);
                           ("bar"%string, lib.optional lib.boolean None)] key
                then Some VUndefined else None.
Proof.
  apply (object_of_optionals_accepts_missing
           [("foo"%string, lib.optional lib.string None);
            ("bar"%string, lib.optional lib.boolean None)]
           [("baz"%string, VNull)] [SegString "test"]).
  - repeat constructor; simpl; eauto.
  - reflexivity.
  - intros key H. unfold get_property, own_properties, lookup_property.
    destruct (String.eqb_spec "baz" key) as [<- | _];
      [vm_compute in H; discriminate | reflexivity].
Defined.

(** ** Chains, further *)

(** X6: chains compose.  The chain of two lists of parsers put one after
    the other is the chain of the two chains, and [pass] is neutral: at
    the head or at the end of a chain it changes nothing. *)
Theorem pipe_composes :
  forall (T : Type) (before after : list (Parser T T)) (value : T) (path : Path),
  pipe (before ++ after) value path = pipe [pipe before; pipe after] value path /\
  pipe (pass :: after) value path = pipe after value path /\
  pipe (before ++ [pass]) value path = pipe before value path.
Proof.
  intros T before after value path. split; [| split].
  - rewrite pipe_app. simpl. destruct (pipe before value path) as [mid|e]; simpl;
      [| reflexivity].
    now destruct (pipe after mid path).
  - reflexivity.
  - rewrite pipe_app. destruct (pipe before value path); reflexivity.
Qed.

(** ** Where failures are located *)

Lemma fails_below_pipe {T : Type} (parsers : list (Parser T T)) :
  Forall fails_below parsers -> fails_below (pipe parsers).
Proof.
  intros Hall. induction Hall as [|p ps Hp _ IH]; intros value path error; simpl.
  - discriminate.
  - destruct (p value path) as [v'|e] eqn:E; simpl.
    + apply IH.
    + intros H. inversion H; subst e. exact (Hp value path error E).
Qed.

Lemma fails_below_optional (inner : Parser Value Value) :
  fails_below inner -> fails_below (lib.optional inner None).
Proof.
  intros Hin input path error. unfold lib.optional.
  destruct (is_undefined input); [discriminate | apply Hin].
Qed.

Lemma object_fields_Throw_inv (parser : ObjectParser) (input : Value) (path : Path) :
  forall acc error,
  object_fields parser input path acc = Throw error ->
  exists name field,
    In (name, field) parser /\
    field (get_property input name) (path ++ [SegString name]) = Throw error.
Proof.
  induction parser as [|[name field] rest IH]; intros acc error H; simpl in H.
  - discriminate.
  - destruct (field _ _) as [x|e] eqn:E; simpl in H.
    + apply IH in H as (name' & field' & Hin & H). exists name', field'.
      split; [now right | exact H].
    + inversion H; subst e. exists name, field. split; [now left | exact E].
Qed.

Lemma fails_below_object (parser : ObjectParser) (ignoreUnknown : bool) :
  Forall (fun entry => fails_below (snd entry)) parser ->
  fails_below (object parser ignoreUnknown).
Proof.
  intros Hall input path error. unfold object.
  destruct (is_null input || negb (String.eqb (typeof input) "object")).
  { intros H. inversion H. exists [], (formatPath path +:+ " must be an object").
    now rewrite app_nil_r. }
  destruct (object_fields parser input path []) as [output|e] eqn:Hf; simpl.
  - destruct ignoreUnknown; simpl; [discriminate |].
    rewrite object_unknown_first.
    destruct (first_unknown parser _) as [key|]; simpl; [| discriminate].
    intros H. inversion H. unfold not_supported. eauto.
  - intros H. inversion H; subst e.
    apply object_fields_Throw_inv in Hf as (name & field & Hin & Hf).
    assert (Hfield : fails_below field).
    { clear Hf. induction Hall as [|entry rest Hentry _ IH]; [contradiction |].
      destruct Hin as [-> | Hin]; [exact Hentry | now apply IH]. }
    destruct (Hfield _ _ _ Hf) as (below & message & ->).
    exists (SegString name :: below), message. now rewrite <- app_assoc.
Qed.

Lemma fails_below_arrayOf {I O : Type} (inner : Parser I O) :
  fails_below inner -> fails_below (lib.arrayOf inner).
Proof.
  intros Hin [items | v] path error; simpl.
  - intros H. apply arrayOf_from_Throw in H as (before & x & after & _ & _ & H).
    destruct (Hin _ _ _ H) as (below & message & ->).
    exists (SegNumber (0 + N.of_nat (List.length before)) :: below), message.
    now rewrite <- app_assoc.
  - intros H. inversion H. exists [], (formatPath path +:+ " must be an array").
    now rewrite app_nil_r.
Qed.

Lemma getErrorMessage_fixed {T : Type} (messageSource : option (MessageSource T))
    (input : T) (path : Path) :
  fixed_message messageSource ->
  exists message, getErrorMessage messageSource input path = Return message.
Proof.
  destruct messageSource as [[message | f]|]; simpl; [eauto | contradiction | eauto].
Qed.

Lemma fails_at_below {I O : Type} (p : Parser I O) : fails_at p -> fails_below p.
Proof.
  intros H input path error E. destruct (H input path error E) as (message & ->).
  exists [], message. now rewrite app_nil_r.
Qed.

Lemma fails_at_isoDuration : fails_at isoDuration.
Proof.
  intros input path error. unfold isoDuration.
  destruct (_ || _); [intros H; inversion H; eauto |].
  destruct (exec _ _ _); [discriminate | intros H; inversion H; eauto].
Qed.

Lemma fails_at_string : fails_at lib.string.
Proof.
  intros input path error. unfold lib.string.
  destruct (negb _); [intros H; inversion H; eauto | discriminate].
Qed.

Lemma fails_at_boolean : fails_at lib.boolean.
Proof.
  intros input path error. unfold lib.boolean.
  destruct (negb _); [intros H; inversion H; eauto | discriminate].
Qed.

(** X7: the combinators keep failures located.  When every failure of
    the parsers they are built from is a [ParserError] at or below the path
    the parser was given, so is every failure of their chain, of
    [optional] without a default, of [object] with either flag and of
    [arrayOf]. *)
Theorem combinators_fail_below :
  forall (T I O : Type) (parsers : list (Parser T T)) (inner : Parser Value Value)
         (shape : ObjectParser) (ignoreUnknown : bool) (element : Parser I O),
  Forall fails_below parsers ->
  fails_below inner ->
  Forall (fun entry => fails_below (snd entry)) shape ->
  fails_below element ->
  fails_below (pipe parsers) /\
  fails_below (lib.optional inner None) /\
  fails_below (object shape ignoreUnknown) /\
  fails_below (lib.arrayOf element).
Proof.
  intros T I O parsers inner shape ignoreUnknown element Hp Hi Hs He.
  split; [now apply fails_below_pipe |].
  split; [now apply fails_below_optional |].
  split; [now apply fails_below_object | now apply fails_below_arrayOf].
Qed.

Lemma combinators_fail_below_witness :
  fails_below (pipe [lib.string; lib.string]) /\
  fails_below (lib.optional lib.boolean None) /\
  fails_below (object [("foo"%string, lib.string)] false) /\
  fails_below (lib.arrayOf isoDuration).
Proof.
  apply (combinators_fail_below Value string spec_float
           [lib.string; lib.string] lib.boolean
           [("foo"%string, lib.string)] false isoDuration).
  - repeat constructor; apply fails_at_below, fails_at_string.
  - apply fails_at_below, fails_at_boolean.
  - repeat constructor; apply fails_at_below, fails_at_string.
  - apply fails_at_below, fails_at_isoDuration.
Defined.

(** X8: [validate] does not throw for a parser whose failures are all
    located [ParserError]s: it returns a boolean for every input, and
    that boolean is true exactly when the parser returns at the empty
    path. *)
Theorem validate_returns_for_located_failures :
  forall (I O : Type) (p : Parser I O) (input : I),
  fails_below p ->
  exists b, validate input p = Return b /\
            (b = true <-> exists output, p input [] = Return output).
Proof.
  intros I O p input Hp. unfold validate.
  destruct (p input []) as [output|error] eqn:E.
  - exists true. split; [reflexivity |]. split; eauto.
  - destruct (Hp input [] error E) as (below & message & ->). simpl.
    exists false. split; [reflexivity |]. split; [discriminate |].
    intros [output H]. discriminate.
Qed.

Lemma validate_returns_for_located_failures_witness :
  exists b, validate "P1.5Y2M"%string isoDuration = Return b /\
            (b = true <-> exists output, isoDuration "P1.5Y2M" [] = Return output).
Proof.
  apply (validate_returns_for_located_failures string spec_float isoDuration
           "P1.5Y2M"%string).
  apply fails_at_below, fails_at_isoDuration.
Defined.

(** ** Sets, exact values and message sources *)

Lemma set_Return {T : Type} `{Countable T} (A : gset T)
    (messageSource : option (MessageSource T)) (input out : T) (path : Path) :
  lib.set A messageSource input path = Return out <->
  out = input /\ elem_of input A.
Proof.
  unfold lib.set. destruct (decide (elem_of input A)) as [Hin | Hout].
  - rewrite bool_decide_eq_true_2 by exact Hin. simpl. split.
    + intros E. inversion E. subst. split; [reflexivity | exact Hin].
    + intros [-> _]. reflexivity.
  - rewrite bool_decide_eq_false_2 by exact Hout. simpl. split.
    + destruct (getErrorMessage _ _ _); discriminate.
    + intros [_ Hin]. contradiction.
Qed.

(** X9: [set] returns its input, unchanged, exactly for the members of
    the set, whatever the message source is; and a chain of two [set]
    parsers accepts exactly the members of both sets. *)
Theorem set_accepts_members :
  forall (T : Type) `(Countable T) (A B : gset T)
         (sourceA sourceB : option (MessageSource T)) (input out : T) (path : Path),
  (lib.set A sourceA input path = Return out <-> out = input /\ elem_of input A) /\
  (pipe [lib.set A sourceA; lib.set B sourceB] input path = Return out <->
   out = input /\ elem_of input (A ∩ B)).
Proof.
  intros T EqT CountT A B sourceA sourceB input out path.
  split; [apply set_Return |]. simpl. split.
  - destruct (lib.set A sourceA input path) as [mid|e] eqn:EA; simpl; [| discriminate].
    apply set_Return in EA as [-> HA].
    destruct (lib.set B sourceB input path) as [out'|e] eqn:EB; simpl; [| discriminate].
    apply set_Return in EB as [-> HB]. intros E. inversion E. subst out.
    split; [reflexivity |]. apply elem_of_intersection. split; assumption.
  - intros [-> [HA HB]%elem_of_intersection].
    rewrite (proj2 (set_Return A sourceA input input path)) by auto. simpl.
    rewrite (proj2 (set_Return B sourceB input input path)) by auto. reflexivity.
Qed.

(** X10: the message source of [equals] is used only when the input is
    not the value.  An input that is the value is returned for every
    message source, also one whose function would throw.  For any other
    input [equals] throws a [ParserError] at the path with the default
    message, the fixed text, or what the function returns for the input
    and the path; when the function throws instead, that is what
    [equals] throws.  [validate] then returns false when the function
    returns or throws a [ParserError], and throws what the function
    throws when that is anything else. *)
Theorem equals_message_source :
  forall (T : Type) (strict_equal : T -> T -> bool) (value input : T) (path : Path),
  (strict_equal input value = true ->
   forall source, lib.equals strict_equal value source input path = Return input) /\
  (strict_equal input value = false ->
   lib.equals strict_equal value None input path
   = Throw (ParserError path (formatPath path +:+ " is invalid")) /\
   (forall message,
      lib.equals strict_equal value (Some (MessageText message)) input path
      = Throw (ParserError path message)) /\
   (forall f,
      lib.equals strict_equal value (Some (MessageFunction f)) input path
      = match f input path with
        | Return message => Throw (ParserError path message)
        | Throw error => Throw error
        end) /\
   (forall f,
      validate input (lib.equals strict_equal value (Some (MessageFunction f)))
      = match f input [] with
        | Return _ => Return false
        | Throw (ParserError _ _) => Return false
        | Throw (OtherError description) => Throw (OtherError description)
        end)).
Proof.
  intros T strict_equal value input path. unfold validate, lib.equals. split.
  - intros -> source. reflexivity.
  - intros ->. simpl.
    split; [reflexivity |]. split; [intros message; reflexivity |].
    split; [intros f; destruct (f input path); reflexivity |].
    intros f. destruct (f input []) as [message | [p m | d]]; reflexivity.
Qed.

Lemma equals_message_source_witness :
  lib.equals String.eqb "test"
    (Some (MessageFunction (fun _ _ => Throw (OtherError "no message"))))
    "test"%string [SegString "test"]
  = Return "test"%string /\
  validate "other"%string
    (lib.equals String.eqb "test"
       (Some (MessageFunction (fun _ _ => Throw (OtherError "no message")))))
  = Throw (OtherError "no message") /\
  validate "other"%string
    (lib.equals String.eqb "test"
       (Some (MessageFunction (fun _ p => Throw (ParserError p "inner")))))
  = Return false.
Proof.
  split; [| split].
  - apply (proj1 (equals_message_source string String.eqb "test" "test"
                    [SegString "test"])).
    reflexivity.
  - apply (proj2 (equals_message_source string String.eqb "test" "other" [])).
    reflexivity.
  - apply (proj2 (equals_message_source string String.eqb "test" "other" [])).
    reflexivity.
Defined.

(** ** Numbers *)

Lemma isSafeInteger_not_NaN (x : spec_float) :
  lib.isSafeInteger x = true -> lib.isNaN x = false.
Proof. destruct x; simpl; [reflexivity | discriminate | discriminate | reflexivity]. Qed.

(** X11: [integer] is [number] made stricter.  Whatever [integer]
    returns for some bounds, [number] returns for the same bounds, and it
    is the input; [integer] accepts no infinity and no NaN, whereas
    [number] without bounds accepts both infinities; NaN is accepted by
    neither, whatever the bounds, although no comparison with a bound
    rejects it.  What they throw is a [ParserError] at the path whose
    message is chosen by the bounds given, not by the input. *)
Theorem integer_refines_number :
  forall (show : spec_float -> string) (min max : option spec_float)
         (input : Value) (path : Path),
  (forall out,
     lib.integer show min max input path = Return out ->
     out = input /\ lib.number show min max input path = Return out) /\
  (forall sign,
     lib.number show None None (VNumber (S754_infinity sign)) path
     = Return (VNumber (S754_infinity sign)) /\
     lib.integer show min max (VNumber (S754_infinity sign)) path
     = Throw (ParserError path (lib.bounds_message show "an integer" min max path))) /\
  lib.below min S754_nan = false /\ lib.above max S754_nan = false /\
  lib.number show min max (VNumber S754_nan) path
  = Throw (ParserError path (lib.bounds_message show "a number" min max path)) /\
  lib.integer show min max (VNumber S754_nan) path
  = Throw (ParserError path (lib.bounds_message show "an integer" min max path)) /\
  (forall error,
     lib.number show min max input path = Throw error ->
     error = ParserError path (lib.bounds_message show "a number" min max path)) /\
  (forall error,
     lib.integer show min max input path = Throw error ->
     error = ParserError path (lib.bounds_message show "an integer" min max path)).
Proof.
  intros show min max input path. unfold lib.integer, lib.number.
  split; [| split; [| split; [| split; [| split; [| split; [| split]]]]]].
  - intros out. destruct input as [| | b | x | s | props]; try discriminate.
    destruct (lib.isSafeInteger x) eqn:Hs; simpl; [| discriminate].
    rewrite (isSafeInteger_not_NaN x Hs), orb_false_r.
    destruct (lib.below min x || lib.above max x); [discriminate |].
    intros H. inversion H. auto.
  - intros sign. split; reflexivity.
  - destruct min; reflexivity.
  - destruct max as [[| | |]|]; reflexivity.
  - now rewrite orb_true_r.
  - reflexivity.
  - intros error. destruct (match input with VNumber _ => _ | _ => _ end);
      [intros H; now inversion H | discriminate].
  - intros error. destruct (match input with VNumber _ => _ | _ => _ end);
      [intros H; now inversion H | discriminate].
Qed.

Lemma integer_refines_number_witness :
  VNumber (Number.of_Z 42) = VNumber (Number.of_Z 42) /\
  lib.number (fun _ => "?"%string) (Some (Number.of_Z 3)) None
    (VNumber (Number.of_Z 42)) []
  = Return (VNumber (Number.of_Z 42)).
Proof.
  apply (proj1 (integer_refines_number (fun _ => "?"%string)
                  (Some (Number.of_Z 3)) None (VNumber (Number.of_Z 42)) [])).
  vm_compute. reflexivity.
Defined.

(** ** Paths, further *)

Lemma later_texts_app (path more : Path) :
  later_texts (path ++ more) = later_texts path +:+ later_texts more.
Proof.
  induction path as [|segment rest IH]; simpl; [reflexivity |].
  now rewrite IH, append_assoc.
Qed.

Lemma formatPath_cons (segment : Segment) (rest : Path) :
  formatPath (segment :: rest)
  = String dquote ((head_text segment +:+ later_texts rest) +:+ String dquote "").
Proof.
  unfold formatPath. simpl. rewrite formatPath_loop_later. simpl.
  rewrite !append_assoc. destruct segment; reflexivity.
Qed.

(** X12: the rendering of a path below a path that is not empty is the
    rendering of that path with, before its closing quote, the segments
    that were added: a dot and the name for a string segment, the
    brackets for the others.  So the rendering in the message of a nested
    failure starts like the rendering of every path above it. *)
Theorem formatPath_extends :
  forall (path more : Path),
  path <> [] ->
  exists body,
    formatPath path = String dquote (body +:+ String dquote "") /\
    formatPath (path ++ more)
    = String dquote ((body +:+ later_texts more) +:+ String dquote "").
Proof.
  intros [|segment rest] more Hne; [contradiction |].
  exists (head_text segment +:+ later_texts rest).
  split; [apply formatPath_cons |].
  change ((segment :: rest) ++ more) with (segment :: (rest ++ more)).
  rewrite formatPath_cons, later_texts_app, !append_assoc. reflexivity.
Qed.

Lemma formatPath_extends_witness :
  exists body,
    formatPath [SegString "test"] = String dquote (body +:+ String dquote "") /\
    formatPath ([SegString "test"] ++ [SegNumber 0; SegString "foo"])
    = String dquote
        ((body +:+ later_texts [SegNumber 0; SegString "foo"]) +:+ String dquote "").
Proof.
  apply (formatPath_extends [SegString "test"] [SegNumber 0; SegString "foo"]).
  discriminate.
Defined.

Lemma fails_at_set {T : Type} `{Countable T} (A : gset T)
    (messageSource : option (MessageSource T)) :
  fixed_message messageSource -> fails_at (lib.set A messageSource).
Proof.
  intros Hfix input path error. unfold lib.set.
  destruct (negb _); [| discriminate].
  destruct (getErrorMessage_fixed messageSource input path Hfix) as [message ->].
  simpl. intros E. inversion E. eauto.
Qed.

Lemma fails_at_map {I : Type} `{Countable I} (table : gmap I Value)
    (messageSource : option (MessageSource I)) :
  fixed_message messageSource -> fails_at (map table messageSource).
Proof.
  intros Hfix input path error. unfold map.
  destruct (_ && _); [| discriminate].
  destruct (getErrorMessage_fixed messageSource input path Hfix) as [message ->].
  simpl. intros E. inversion E. eauto.
Qed.

Lemma fails_at_equals {T : Type} (strict_equal : T -> T -> bool) (value : T)
    (messageSource : option (MessageSource T)) :
  fixed_message messageSource ->
  fails_at (lib.equals strict_equal value messageSource).
Proof.
  intros Hfix input path error. unfold lib.equals.
  destruct (negb _); [| discriminate].
  destruct (getErrorMessage_fixed messageSource input path Hfix) as [message ->].
  simpl. intros E. inversion E. eauto.
Qed.

(** X13: a parser without inner parsers fails at the path it was given:
    whatever [string], [boolean], [number] and [integer] throw, and
    whatever [set], [map] and [equals] throw when their message source
    is absent or a fixed text, is a [ParserError] whose path is the path
    of the call; [pass] throws nothing. *)
Theorem leaf_parsers_fail_at_their_path :
  forall (T : Type) `(Countable T) (members : gset T) (table : gmap T Value)
         (strict_equal : T -> T -> bool) (value : T)
         (messageSource : option (MessageSource T))
         (show : spec_float -> string) (min max : option spec_float),
  fixed_message messageSource ->
  fails_at lib.string /\ fails_at lib.boolean /\
  fails_at (lib.number show min max) /\ fails_at (lib.integer show min max) /\
  fails_at (lib.set members messageSource) /\
  fails_at (map table messageSource) /\
  fails_at (lib.equals strict_equal value messageSource) /\
  (forall (input : T) (path : Path) error, pass input path <> Throw error).
Proof.
  intros T EqT CountT members table strict_equal value messageSource show min max Hfix.
  split; [apply fails_at_string |]. split; [apply fails_at_boolean |].
  split.
  { intros input path error. unfold lib.number.
    destruct (match input with VNumber _ => _ | _ => _ end);
      [intros E; inversion E; eauto | discriminate]. }
  split.
  { intros input path error. unfold lib.integer.
    destruct (match input with VNumber _ => _ | _ => _ end);
      [intros E; inversion E; eauto | discriminate]. }
  split; [now apply fails_at_set |]. split; [now apply fails_at_map |].
  split; [now apply fails_at_equals |].
  intros input path error. discriminate.
Qed.

Lemma leaf_parsers_fail_at_their_path_witness :
  fails_at (lib.equals String.eqb "test" (Some (MessageText "custom"))) /\
  fails_at (lib.set (singleton "foo"%string : gset string)
              (Some (MessageText "custom"))).
Proof.
  destruct (leaf_parsers_fail_at_their_path string _
              (singleton "foo"%string : gset string) ∅ String.eqb "test"
              (Some (MessageText "custom")) (fun _ => "?"%string) None None I)
    as (_ & _ & _ & _ & Hset & _ & Hequals & _).
  split; [exact Hequals | exact Hset].
Defined.

(** ** The texts the pattern of durations matches *)

Section Accepting.

Context {C : Type}.
Implicit Types (k : @Continuation C) (m : @Matcher C).

Lemma char_set_accepts (p : ascii -> bool) (a : ascii) (rest : string) k :
  p a = true -> accepts k rest ->
  accepts (fun i s c => char_set p i s c k) (String a rest).
Proof. intros Ha Hk i c. simpl. rewrite Ha. apply Hk. Qed.

Lemma star_set_accepts (p : ascii -> bool) (d rest : string) k :
  String_forall p d = true -> accepts k rest ->
  accepts (fun i s c => star_set p i s c k) (d +:+ rest).
Proof.
  intros Hd Hk. induction d as [|a d IH]; intros i c; simpl in *.
  - destruct rest as [|b rest]; simpl; [apply Hk |].
    destruct (p b); [| apply Hk].
    destruct (star_set p (S i) rest c k); [eauto | apply Hk].
  - apply andb_prop in Hd as [Ha Hd]. rewrite Ha.
    destruct (IH Hd (S i) c) as [r ->]. eauto.
Qed.

Lemma plus_set_accepts (p : ascii -> bool) (d rest : string) k :
  d <> "" -> String_forall p d = true -> accepts k rest ->
  accepts (fun i s c => plus_set p i s c k) (d +:+ rest).
Proof.
  intros Hne Hd Hk. destruct d as [|a d]; [contradiction |].
  simpl in Hd. apply andb_prop in Hd as [Ha Hd]. unfold plus_set, seq.
  apply (char_set_accepts p a (d +:+ rest) _ Ha).
  now apply star_set_accepts.
Qed.

Lemma alt_accepts_l m1 m2 k (s : string) :
  accepts (fun i s c => m1 i s c k) s -> accepts (fun i s c => alt m1 m2 i s c k) s.
Proof. intros H i c. unfold alt. destruct (H i c) as [r ->]. eauto. Qed.

Lemma alt_accepts_r m1 m2 k (s : string) :
  accepts (fun i s c => m2 i s c k) s -> accepts (fun i s c => alt m1 m2 i s c k) s.
Proof. intros H i c. unfold alt. destruct (m1 i s c k); [eauto | apply H]. Qed.

Lemma designator_ahead_accepts (X : ascii) (rest : string) k :
  only_T_left rest -> accepts k (String X rest) ->
  accepts (fun i s c =>
             lookahead (seq (chr X) (seq (opt (chr "T")) eos)) i s c k)
          (String X rest).
Proof.
  intros Hrest Hk i c.
  unfold lookahead, seq, opt, alt, chr, char_set, empty, eos.
  rewrite Ascii.eqb_refl. destruct Hrest as [-> | ->]; simpl; apply Hk.
Qed.

End Accepting.

Lemma element_accepts (X : ascii) (name : string -> Groups -> Groups)
    (q : option string) (rest : string) (k : Continuation) :
  shape_opt q rest -> accepts k rest ->
  accepts (fun i s c => element X name i s c k) (element_text X q +:+ rest).
Proof.
  intros Hq Hk. unfold element, opt. destruct q as [v|]; simpl in *.
  2: { apply alt_accepts_r. exact Hk. }
  apply alt_accepts_l. unfold seq at 1, capture.
  rewrite append_assoc. simpl.
  assert (HX : forall name', accepts
            (fun i' s' c' => chr X i' s' (name' i' s' c') k) (String X rest)).
  { intros name' i c. unfold chr, char_set. rewrite Ascii.eqb_refl. apply Hk. }
  destruct Hq as [[Hne Hd] | [(d1 & a & d2 & -> & Hd1 & Ha & Hne & Hd2) Hrest]].
  - intros i c. apply alt_accepts_r.
    apply (plus_set_accepts is_digit v (String X rest) _ Hne Hd).
    intros i' c'. apply (HX (fun i' s' c' => name (substring 0 (i' - i) _) c')).
  - intros i c. apply alt_accepts_l. unfold seq.
    rewrite append_assoc. simpl.
    apply (star_set_accepts is_digit d1 _ _ Hd1).
    apply (char_set_accepts is_separator a _ _ Ha).
    apply (plus_set_accepts is_digit d2 (String X rest) _ Hne Hd2).
    apply designator_ahead_accepts; [exact Hrest |].
    intros i' c'. apply (HX (fun i' s' c' => name (substring 0 (i' - i) _) c')).
Qed.

Lemma ISO_DURATION_REGEXP_complete (input : string) (g : Groups) :
  duration_grammar input g ->
  is_Some (exec ISO_DURATION_REGEXP no_groups input).
Proof.
  intros (Hsign & ttail & -> & (HY & HM & HW & HD & _) & Htime).
  unfold ISO_DURATION_REGEXP. rewrite exec_bos. unfold seq, bos.
  assert (Hend : accepts (C := Groups)
            (fun i s c => eos i s c (fun _ _ c' => Some c')) "").
  { intros i c. simpl. eauto. }
  assert (Htail : accepts
            (fun i5 s5 g5 =>
               opt (fun i s c k => chr "T" i s c
                      (fun i6 s6 g6 => element "H" set_hours i6 s6 g6
                      (fun i7 s7 g7 => element "M" set_minutes i7 s7 g7
                      (fun i8 s8 g8 => element "S" set_seconds i8 s8 g8 k))))
                 i5 s5 g5
                 (fun i9 s9 g9 => eos i9 s9 g9 (fun _ _ c => Some c)))
            ttail).
  { unfold opt. destruct Htime as [(-> & _) | (-> & HH & HMi & HS & _)].
    - apply alt_accepts_r. exact Hend.
    - apply alt_accepts_l. intros i c. unfold chr, char_set. simpl.
      apply (element_accepts "H" set_hours (hours g) _ _ HH).
      apply (element_accepts "M" set_minutes (minutes g) _ _ HMi).
      simpl in HS.
      pose proof (element_accepts "S" set_seconds (seconds g) "" _ HS Hend) as H.
      rewrite append_empty_r in H. simpl. rewrite append_empty_r. exact H. }
  assert (Hrest : accepts
            (fun i0 s0 g0 => chr "P" i0 s0 g0
              (fun i1 s1 g1 => element "Y" set_years i1 s1 g1
              (fun i2 s2 g2 => element "M" set_months i2 s2 g2
              (fun i3 s3 g3 => element "W" set_weeks i3 s3 g3
              (fun i4 s4 g4 => element "D" set_days i4 s4 g4
              (fun i5 s5 g5 =>
                 opt (fun i s c k => chr "T" i s c
                        (fun i6 s6 g6 => element "H" set_hours i6 s6 g6
                        (fun i7 s7 g7 => element "M" set_minutes i7 s7 g7
                        (fun i8 s8 g8 => element "S" set_seconds i8 s8 g8 k))))
                   i5 s5 g5
                   (fun i9 s9 g9 => eos i9 s9 g9 (fun _ _ c => Some c))))))))
            (String "P" (elements_text (date_half g) ttail))).
  { intros i c. unfold chr, char_set. simpl.
    apply (element_accepts "Y" set_years (years g) _ _ HY).
    apply (element_accepts "M" set_months (months g) _ _ HM).
    apply (element_accepts "W" set_weeks (weeks g) _ _ HW).
    apply (element_accepts "D" set_days (days g) _ _ HD).
    exact Htail. }
  destruct Hsign as [-> | ->]; unfold sign_text, opt.
  - exact (alt_accepts_r (capture set_negative (chr "-")) empty _ _ Hrest
             0%nat no_groups).
  - refine (alt_accepts_l (capture set_negative (chr "-")) empty _
              (String "-" (String "P" (elements_text (date_half g) ttail))) _
              0%nat no_groups).
    intros i c. unfold capture, chr at 1, char_set.
    rewrite Ascii.eqb_refl. apply Hrest.
Qed.

Lemma empty_form_not_accepted (input : string) (path : Path) :
  empty_form input = true -> isoDuration input path = Throw (duration_error path).
Proof. unfold isoDuration, empty_form. now intros ->. Qed.

(** X14: the texts [isoDuration] accepts are exactly the texts of the
    grammar of durations, the four empty forms apart: a sign [-] or
    none, [P], then in this order at most one quantity each with the
    designators Y, M, W and D, then nothing or [T] and at most one
    quantity each with H, M and S, where a quantity is digits, or digits
    (maybe none), a comma or full stop and digits when only a [T] or
    nothing comes after its designator. *)
Theorem isoDuration_accepts_the_grammar :
  forall (input : string) (path : Path),
  (exists ms, isoDuration input path = Return ms) <->
  empty_form input = false /\ exists groups, duration_grammar input groups.
Proof.
  intros input path. split.
  - intros [ms H]. split.
    + destruct (empty_form input) eqn:E; [| reflexivity].
      rewrite (empty_form_not_accepted input path E) in H. discriminate.
    + apply isoDuration_Return in H as (groups & Hexec & _).
      exists groups. now apply ISO_DURATION_REGEXP_sound.
  - intros [Hempty [groups Hg]].
    apply ISO_DURATION_REGEXP_complete in Hg as [r Hr].
    unfold isoDuration. unfold empty_form in Hempty. rewrite Hempty, Hr. eauto.
Qed.

(** ** Matching a translated text *)

Lemma substring_map (f : ascii -> ascii) (s : string) : forall n m,
  substring n m (String_map f s) = String_map f (substring n m s).
Proof.
  induction s as [|a s IH]; intros [|n] [|m]; simpl; try reflexivity;
    now rewrite IH.
Qed.

Lemma String_map_id (s : string) : String_map (fun a => a) s = s.
Proof. induction s as [|a s IH]; simpl; [reflexivity | now rewrite IH]. Qed.

Section Translating.

Context {C : Type} (shift : nat) (fa : ascii -> ascii) (fc : C -> C).
Implicit Types (k : @Continuation C) (m : @Matcher C).

Lemma translates_char_set (p : ascii -> bool) :
  (forall a, p (fa a) = p a) -> translates shift fa fc (char_set p).
Proof.
  intros Hp k k' Hk i s c. destruct s as [|a s]; simpl; [reflexivity |].
  rewrite Hp. destruct (p a); [| reflexivity].
  rewrite <- Nat.add_succ_r. apply (Hk (S i) s c).
Qed.

Lemma translates_star_set (p : ascii -> bool) :
  (forall a, p (fa a) = p a) -> translates shift fa fc (star_set p).
Proof.
  intros Hp k k' Hk i s. revert i.
  induction s as [|a s IH]; intros i c; simpl; [apply (Hk i "" c) |].
  rewrite Hp. destruct (p a); [| apply (Hk i (String a s) c)].
  rewrite <- Nat.add_succ_r, (IH (S i) c).
  destruct (star_set p (S i) s c k); [reflexivity | apply (Hk i (String a s) c)].
Qed.

Lemma translates_seq m1 m2 :
  translates shift fa fc m1 -> translates shift fa fc m2 ->
  translates shift fa fc (seq m1 m2).
Proof. intros H1 H2 k k' Hk. unfold seq. apply H1. now apply H2. Qed.

Lemma translates_alt m1 m2 :
  translates shift fa fc m1 -> translates shift fa fc m2 ->
  translates shift fa fc (alt m1 m2).
Proof.
  intros H1 H2 k k' Hk i s c. unfold alt.
  rewrite (H1 k k' Hk i s c), (H2 k k' Hk i s c).
  destruct (m1 i s c k); reflexivity.
Qed.

Lemma translates_empty : translates shift fa fc empty.
Proof. intros k k' Hk. exact Hk. Qed.

Lemma translates_opt m :
  translates shift fa fc m -> translates shift fa fc (opt m).
Proof. intros H. apply translates_alt; [exact H | apply translates_empty]. Qed.

Lemma translates_plus_set (p : ascii -> bool) :
  (forall a, p (fa a) = p a) -> translates shift fa fc (plus_set p).
Proof.
  intros Hp. apply translates_seq;
    [now apply translates_char_set | now apply translates_star_set].
Qed.

Lemma translates_eos : translates shift fa fc eos.
Proof.
  intros k k' Hk i s c. destruct s as [|a s]; simpl; [apply (Hk i "" c) | reflexivity].
Qed.

Lemma translates_lookahead m :
  translates shift fa fc m -> translates shift fa fc (lookahead m).
Proof.
  intros Hm k k' Hk i s c. unfold lookahead.
  rewrite (Hm (fun _ _ c' => Some c') (fun _ _ c' => Some c')) by (intros ? ? ?; reflexivity).
  destruct (m i s c _) as [c'|]; simpl; [apply (Hk i s c') | reflexivity].
Qed.

Lemma translates_capture (name : string -> C -> C) m :
  (forall v c, name (String_map fa v) (fc c) = fc (name v c)) ->
  translates shift fa fc m -> translates shift fa fc (capture name m).
Proof.
  intros Hname Hm k k' Hk i s c. unfold capture.
  apply (Hm (fun i' s' c' => k i' s' (name (substring 0 (i' - i) s) c'))).
  intros i' s' c'.
  replace (shift + i' - (shift + i))%nat with (i' - i)%nat by lia.
  rewrite substring_map, Hname. apply (Hk i' s').
Qed.

End Translating.

Lemma translates_bos {C : Type} (fa : ascii -> ascii) (fc : C -> C) :
  translates 0 fa fc bos.
Proof.
  intros k k' Hk i s c. unfold bos. simpl.
  destruct i; [apply (Hk 0%nat s c) | reflexivity].
Qed.

Lemma translates_element (shift : nat) (fa : ascii -> ascii) (fc : Groups -> Groups)
    (X : ascii) (name : string -> Groups -> Groups) :
  (forall a, is_digit (fa a) = is_digit a) ->
  (forall a, is_separator (fa a) = is_separator a) ->
  (forall a, Ascii.eqb X (fa a) = Ascii.eqb X a) ->
  (forall a, Ascii.eqb "T" (fa a) = Ascii.eqb "T" a) ->
  (forall v c, name (String_map fa v) (fc c) = fc (name v c)) ->
  translates shift fa fc (element X name).
Proof.
  intros Hd Hs HX HT Hname. unfold element.
  apply translates_opt, translates_seq; [| now apply translates_char_set].
  apply translates_capture; [exact Hname |].
  apply translates_alt; [| now apply translates_plus_set].
  apply translates_seq; [now apply translates_star_set |].
  apply translates_seq; [now apply translates_char_set |].
  apply translates_seq; [now apply translates_plus_set |].
  apply translates_lookahead, translates_seq; [now apply translates_char_set |].
  apply translates_seq; [| apply translates_eos].
  apply translates_opt. now apply translates_char_set.
Qed.

(** The pattern after its [^] and its sign. *)
Lemma translates_unsigned (shift : nat) (fa : ascii -> ascii) (fc : Groups -> Groups) :
  (forall a, is_digit (fa a) = is_digit a) ->
  (forall a, is_separator (fa a) = is_separator a) ->
  (forall X a, is_separator X = false -> Ascii.eqb X (fa a) = Ascii.eqb X a) ->
  (forall name v c,
     In name [set_years; set_months; set_weeks; set_days;
              set_hours; set_minutes; set_seconds] ->
     name (String_map fa v) (fc c) = fc (name v c)) ->
  translates shift fa fc
    (seq (chr "P")
       (seq (element "Y" set_years)
          (seq (element "M" set_months)
             (seq (element "W" set_weeks)
                (seq (element "D" set_days)
                   (seq (opt (seq (chr "T")
                                (seq (element "H" set_hours)
                                   (seq (element "M" set_minutes)
                                      (element "S" set_seconds)))))
                      eos)))))).
Proof.
  intros Hd Hs Hc Hname.
  assert (He : forall X name,
            is_separator X = false ->
            In name [set_years; set_months; set_weeks; set_days;
                     set_hours; set_minutes; set_seconds] ->
            translates shift fa fc (element X name)).
  { intros X name HX Hin. apply translates_element; auto. }
  assert (Hchr : forall X, is_separator X = false ->
                           translates shift fa fc (chr X)).
  { intros X HX. apply translates_char_set. intros a. now apply Hc. }
  apply translates_seq; [now apply Hchr |].
  apply translates_seq; [apply He; [reflexivity | simpl; tauto] |].
  apply translates_seq; [apply He; [reflexivity | simpl; tauto] |].
  apply translates_seq; [apply He; [reflexivity | simpl; tauto] |].
  apply translates_seq; [apply He; [reflexivity | simpl; tauto] |].
  apply translates_seq; [| apply translates_eos].
  apply translates_opt.
  apply translates_seq; [now apply Hchr |].
  apply translates_seq; [apply He; [reflexivity | simpl; tauto] |].
  apply translates_seq; apply He; first [reflexivity | simpl; tauto].
Qed.

(** ** Commas and full stops *)

Lemma separator_cases (a : ascii) :
  is_separator a = true -> a = ","%char \/ a = "."%char.
Proof.
  unfold is_separator. intros [H | H]%orb_prop; apply Ascii.eqb_eq in H; auto.
Qed.

Lemma dot_digit (a : ascii) : is_digit (dot a) = is_digit a.
Proof.
  unfold dot. destruct (Ascii.eqb a ",") eqn:E; [| reflexivity].
  apply Ascii.eqb_eq in E. now subst a.
Qed.

Lemma dot_separator (a : ascii) : is_separator (dot a) = is_separator a.
Proof.
  unfold dot. destruct (Ascii.eqb a ",") eqn:E; [| reflexivity].
  apply Ascii.eqb_eq in E. now subst a.
Qed.

Lemma dot_other (X a : ascii) :
  is_separator X = false -> Ascii.eqb X (dot a) = Ascii.eqb X a.
Proof.
  unfold is_separator, dot. intros [H1 H2]%orb_false_elim.
  destruct (Ascii.eqb a ",") eqn:E; [| reflexivity].
  apply Ascii.eqb_eq in E. subst a. now rewrite H1, H2.
Qed.

Lemma dots_digits (d : string) : String_forall is_digit d = true -> dots d = d.
Proof.
  unfold dots. induction d as [|a d IH]; simpl; [reflexivity |].
  intros [Ha Hd]%andb_prop. rewrite (IH Hd). f_equal.
  unfold dot. destruct (Ascii.eqb a ",") eqn:E; [| reflexivity].
  apply Ascii.eqb_eq in E. subst a. discriminate.
Qed.

Lemma dots_append (a b : string) : dots (a +:+ b) = dots a +:+ dots b.
Proof.
  unfold dots. induction a as [|x a IH]; simpl; [reflexivity | now rewrite IH].
Qed.

Lemma replace_digits (d rest : string) :
  String_forall is_digit d = true ->
  String_replace "," "." (d +:+ rest) = d +:+ String_replace "," "." rest.
Proof.
  induction d as [|a d IH]; simpl; [reflexivity |].
  intros [Ha Hd]%andb_prop.
  destruct (Ascii.eqb a ",") eqn:E.
  - apply Ascii.eqb_eq in E. subst a. discriminate.
  - now rewrite (IH Hd).
Qed.

Lemma replace_only_digits (d : string) :
  String_forall is_digit d = true -> String_replace "," "." d = d.
Proof.
  intros Hd. rewrite <- (append_empty_r d) at 1.
  rewrite (replace_digits d "" Hd). simpl. apply append_empty_r.
Qed.

(** A captured quantity has at most one comma: replacing the first one
    is replacing them all. *)
Lemma parseElem_dots (q : option string) (rest : string) :
  shape_opt q rest -> parseElem (option_map dots q) = parseElem q.
Proof.
  destruct q as [v|]; [| reflexivity]. simpl.
  intros [[_ Hd] | [(d1 & a & d2 & -> & Hd1 & Ha & _ & Hd2) _]].
  - now rewrite (dots_digits v Hd).
  - f_equal. rewrite dots_append, (dots_digits d1 Hd1). unfold dots at 1. simpl.
    fold (dots d2). rewrite (dots_digits d2 Hd2).
    rewrite !(replace_digits d1 _ Hd1). f_equal.
    destruct (separator_cases a Ha) as [-> | ->]; simpl;
      now rewrite (replace_only_digits d2 Hd2).
Qed.

Lemma duration_of_groups_dots (input : string) (g : Groups) :
  duration_grammar input g ->
  duration_of_groups (dots_groups g) = duration_of_groups g.
Proof.
  intros (Hsign & ttail & _ & (HY & HM & HW & HD & _) & Htime).
  assert (Ht : parseElem (option_map dots (hours g)) = parseElem (hours g) /\
               parseElem (option_map dots (minutes g)) = parseElem (minutes g) /\
               parseElem (option_map dots (seconds g)) = parseElem (seconds g)).
  { destruct Htime as [(_ & -> & -> & ->) | (_ & HH & HMi & HS & _)].
    - repeat split.
    - repeat split; eapply parseElem_dots; eassumption. }
  destruct Ht as (Hh & Hmi & Hs).
  unfold duration_of_groups, dots_groups. simpl.
  rewrite (parseElem_dots _ _ HY), (parseElem_dots _ _ HM),
    (parseElem_dots _ _ HW), (parseElem_dots _ _ HD), Hh, Hmi, Hs.
  destruct Hsign as [-> | ->]; reflexivity.
Qed.

Lemma exec_dots (s : string) :
  exec ISO_DURATION_REGEXP no_groups (dots s)
  = option_map dots_groups (exec ISO_DURATION_REGEXP no_groups s).
Proof.
  unfold ISO_DURATION_REGEXP. rewrite !exec_bos.
  assert (H : translates 0 dot dots_groups
            (seq bos
               (seq (opt (capture set_negative (chr "-")))
                  (seq (chr "P")
                     (seq (element "Y" set_years)
                        (seq (element "M" set_months)
                           (seq (element "W" set_weeks)
                              (seq (element "D" set_days)
                                 (seq (opt (seq (chr "T")
                                              (seq (element "H" set_hours)
                                                 (seq (element "M" set_minutes)
                                                    (element "S" set_seconds)))))
                                    eos))))))))).
  { apply translates_seq; [apply translates_bos |].
    apply translates_seq.
    - apply translates_opt, translates_capture; [reflexivity |].
      apply translates_char_set. intros a. now apply dot_other.
    - apply translates_unsigned.
      + exact dot_digit.
      + exact dot_separator.
      + exact dot_other.
      + intros name v c Hin. simpl in Hin.
        repeat (destruct Hin as [<- | Hin]; [reflexivity |]). contradiction. }
  exact (H (fun _ _ c => Some c) (fun _ _ c => Some c)
           (fun _ _ _ => eq_refl) 0%nat s no_groups).
Qed.

Lemma dot_eqb (a b : ascii) :
  is_separator b = false -> Ascii.eqb (dot a) b = Ascii.eqb a b.
Proof.
  intros Hb. rewrite (Ascii.eqb_sym (dot a)), (Ascii.eqb_sym a).
  now apply dot_other.
Qed.

Lemma dots_eqb (t : string) : forall s,
  String_exists is_separator t = false ->
  String.eqb (dots s) t = String.eqb s t.
Proof.
  unfold dots. induction t as [|b t IH]; intros [|a s] Ht; simpl in *;
    try reflexivity.
  apply orb_false_elim in Ht as [Hb Ht].
  now rewrite (dot_eqb a b Hb), (IH s Ht).
Qed.

(** X15: a comma and a full stop are the same to [isoDuration]: for every
    text, accepted or not, the outcome is the outcome for the text with
    each of its commas written as a full stop. *)
Theorem isoDuration_comma_is_full_stop :
  forall (input : string) (path : Path),
  isoDuration (dots input) path = isoDuration input path.
Proof.
  intros input path. unfold isoDuration.
  rewrite !(dots_eqb _ input) by reflexivity.
  destruct (_ || _); [reflexivity |].
  rewrite exec_dots.
  destruct (exec ISO_DURATION_REGEXP no_groups input) as [g|] eqn:E; simpl;
    [| reflexivity].
  apply ISO_DURATION_REGEXP_sound in E.
  now rewrite (duration_of_groups_dots input g E).
Qed.

(** ** The sign *)

Lemma exec_minus (rest : string) :
  exec ISO_DURATION_REGEXP no_groups (String "-" (String "P" rest))
  = option_map (set_negative "-")
      (exec ISO_DURATION_REGEXP no_groups (String "P" rest)).
Proof.
  unfold ISO_DURATION_REGEXP. rewrite !exec_bos.
  pose proof (translates_unsigned 1 (fun a => a) (set_negative "-")
                (fun a => eq_refl) (fun a => eq_refl) (fun X a _ => eq_refl)) as H.
  assert (Hname : forall name v c,
            In name [set_years; set_months; set_weeks; set_days;
                     set_hours; set_minutes; set_seconds] ->
            name (String_map (fun a => a) v) (set_negative "-" c)
            = set_negative "-" (name v c)).
  { intros name v c Hin. rewrite String_map_id. simpl in Hin.
    repeat (destruct Hin as [<- | Hin]; [reflexivity |]). contradiction. }
  specialize (H Hname (fun _ _ c => Some c) (fun _ _ c => Some c)
                (fun _ _ _ => eq_refl) 0%nat (String "P" rest) no_groups).
  rewrite String_map_id in H. cbv beta in H.
  change (1 + 0)%nat with 1%nat in H.
  set (U := seq (chr "P") _) in *.
  change (match U 1%nat (String "P" rest) (set_negative "-" no_groups)
                  (fun _ _ c => Some c) with
          | Some r => Some r
          | None => None
          end
          = option_map (set_negative "-")
              (U 0%nat (String "P" rest) no_groups (fun _ _ c => Some c))).
  rewrite <- H. now destruct (U 1%nat _ _ _).
Qed.

Lemma empty_form_minus (rest : string) :
  empty_form (String "-" (String "P" rest)) = empty_form (String "P" rest).
Proof.
  unfold empty_form.
  repeat match goal with
         | |- context [String.eqb ?a ?b] => destruct (String.eqb_spec a b)
         end; simpl; try reflexivity; congruence.
Qed.

(** X16: the sign only changes the sign.  A text that begins with [P] and
    the same text after a [-] are both rejected, with the same error, or
    both accepted with the same groups of quantities; the number returned
    is then the same sum of the quantities, multiplied by 1 for the one
    and by -1 for the other. *)
Theorem isoDuration_sign_negates :
  forall (rest : string) (path : Path),
  (forall error,
     isoDuration (String "P" rest) path = Throw error ->
     isoDuration (String "-" (String "P" rest)) path = Throw error) /\
  (forall ms,
     isoDuration (String "P" rest) path = Return ms ->
     exists groups,
       exec ISO_DURATION_REGEXP no_groups (String "P" rest) = Some groups /\
       exec ISO_DURATION_REGEXP no_groups (String "-" (String "P" rest))
       = Some (set_negative "-" groups) /\
       ms = Number.mul (duration_magnitude groups) (Number.of_Z 1) /\
       isoDuration (String "-" (String "P" rest)) path
       = Return (Number.mul (duration_magnitude groups) (Number.of_Z (-1)))).
Proof.
  intros rest path. unfold isoDuration. fold (empty_form (String "P" rest)).
  fold (empty_form (String "-" (String "P" rest))).
  rewrite empty_form_minus, exec_minus.
  destruct (empty_form (String "P" rest)).
  { split; [intros error H; exact H | intros ms H; discriminate]. }
  destruct (exec ISO_DURATION_REGEXP no_groups (String "P" rest)) as [g|] eqn:E;
    simpl.
  - split; [intros error H; discriminate |].
    intros ms H. inversion H; subst ms. exists g.
    split; [reflexivity |]. split; [reflexivity |].
    assert (Hneg : negative g = None).
    { apply ISO_DURATION_REGEXP_sound in E as (Hsign & ttail & Htext & _).
      destruct Hsign as [Hn | Hn]; [exact Hn |].
      rewrite Hn in Htext. discriminate. }
    split; [| reflexivity].
    unfold duration_of_groups, duration_magnitude. now rewrite Hneg.
  - split; [intros error H; exact H | intros ms H; discriminate].
Qed.

Lemma isoDuration_sign_negates_witness :
  exists groups,
    exec ISO_DURATION_REGEXP no_groups "P3Y6.2M" = Some groups /\
    exec ISO_DURATION_REGEXP no_groups "-P3Y6.2M" = Some (set_negative "-" groups) /\
    Number.of_Z 110678400000
    = Number.mul (duration_magnitude groups) (Number.of_Z 1) /\
    isoDuration "-P3Y6.2M" []
    = Return (Number.mul (duration_magnitude groups) (Number.of_Z (-1))).
Proof.
  apply (proj2 (isoDuration_sign_negates "3Y6.2M" [])).
  vm_compute. reflexivity.
Defined.
